(** * AnyAnimal: a fixed-size, heap-free type-erasing container

    A shallow embedding of [src/main.cpp]: the [Animal] classes, the
    hand-built dispatch table [VTable], the container [AnyAnimal] with its
    in-place buffer [storage_] and table pointer [vptr], and [main].

    Containers live in a store indexed by address, so that [this == &other]
    is a comparison of addresses and a moved-from container is the same
    object as before the move.  Every write to [std::cout], every object
    construction and every destructor call is recorded in a trace. *)

From Stdlib Require Import NArith ZArith Ascii String Eqdep_dec.
From stdpp Require Import base option list gmap strings.

Open Scope N_scope.
Open Scope string_scope.

(** ** Concrete types as the container sees them *)

(** What [AnyAnimal] uses of a type [T]: [sizeof(T)] and [alignof(T)] in the
    two [static_assert]s, [T::print_food_requirements() const] in the table's
    first entry, [T(T&&)] in the constructor and in the table's [move], and
    [~T] in [destroy].  [method_print_food_requirements T x] is what the
    method writes to [std::cout] on the object [x]; [move_ctor T x] is the
    pair of the newly constructed object and the state the source is left
    in, when the constructor returns; a move constructor that throws is the
    subject of [Section Exceptions] below.  Destructors return, as
    [std::destroy_at] requires of the type it is given. *)
Class Concrete (Ty : Type) := {
  Ty_eq_dec :: EqDecision Ty;
  obj : Ty -> Type;
  sizeof : Ty -> N;
  alignof : Ty -> N;
  method_print_food_requirements : forall T : Ty, obj T -> string;
  move_ctor : forall T : Ty, obj T -> obj T * obj T
}.

(** Addresses of containers. *)
Abbreviation addr := positive.

(** Outcome of running a piece of the program: it returns, it stops in a
    failed [assert], or its behaviour is undefined. *)
Inductive result (A : Type) : Type :=
  | Ok (a : A)
  | AssertionFailed (msg : string)
  | Undefined.
Arguments Ok {A} a.
Arguments AssertionFailed {A} msg.
Arguments Undefined {A}.

#[global] Instance result_ret : MRet result := fun A a => Ok a.
#[global] Instance result_bind : MBind result := fun A B f m =>
  match m with
  | Ok a => f a
  | AssertionFailed msg => AssertionFailed msg
  | Undefined => Undefined
  end.

(** Where an object lives: in the buffer of the container at [p], or in
    automatic storage (a temporary or a by-value parameter). *)
Inductive Place : Type :=
  | InBuffer (p : addr)
  | Automatic.

Section Container.
Context {Ty : Type} `{Concrete Ty}.

(** [alignof(std::max_align_t)] and whether [NDEBUG] is defined are fixed
    by the platform and the build. *)
Variable alignof_max_align_t : N.
Variable NDEBUG : bool.

(** An object together with its type: what a [void*] into a buffer
    points at. *)
Definition Dyn : Type := { T : Ty & obj T }.

Definition dyn (T : Ty) (x : obj T) : Dyn := existT T x.

(** [static_cast<T*>(data)] followed by an access: defined only when the
    object really is a [T]. *)
Definition cast (T : Ty) (d : Dyn) : option (obj T) :=
  match d with
  | existT U x =>
      match decide (U = T) with
      | left e => Some (eq_rect U obj x T e)
      | right _ => None
      end
  end.

Inductive Event : Type :=
  | Cout (s : string)
  | Constructed (where_ : Place) (o : Dyn)
  | Destroyed (where_ : Place) (o : Dyn).

Definition BUFFER_SIZE : N := 128.
Definition ALIGNMENT : N := alignof_max_align_t.

(** [storage_] is the list of the objects constructed in the buffer whose
    destructor has not run, the most recent first (it is the one a pointer
    to the buffer designates).  [vptr] is [None] for [nullptr] and
    [Some T] for [&vtable_for<T>]: there is one table per type. *)
Record AnyAnimal : Type := {
  storage_ : list Dyn;
  vptr : option Ty
}.

Record State : Type := {
  heap : gmap addr AnyAnimal;
  trace : list Event
}.

Record VTable : Type := {
  print_food_requirements : addr -> State -> result State;
  destroy : addr -> State -> result State;
  move : addr -> addr -> State -> result State
}.

(** *** Memory primitives *)

Definition emit (e : Event) (s : State) : State :=
  {| heap := heap s; trace := trace s ++ [e] |}.

Definition load (p : addr) (s : State) : result AnyAnimal :=
  match heap s !! p with
  | Some c => Ok c
  | None => Undefined
  end.

Definition store (p : addr) (c : AnyAnimal) (s : State) : State :=
  {| heap := <[p := c]> (heap s); trace := trace s |}.

Definition set_vptr (p : addr) (v : option Ty) (s : State) : result State :=
  c ← load p s;
  Ok (store p {| storage_ := storage_ c; vptr := v |} s).

Definition set_storage (p : addr) (l : list Dyn) (s : State) : result State :=
  c ← load p s;
  Ok (store p {| storage_ := l; vptr := vptr c |} s).

(** [*static_cast<T*>(data)] *)
Definition object_at (T : Ty) (data : addr) (s : State) : result (obj T) :=
  c ← load data s;
  match storage_ c with
  | d :: _ =>
      match cast T d with
      | Some x => Ok x
      | None => Undefined
      end
  | [] => Undefined
  end.

(** [new (p) T(...)] where the constructor yields [x] *)
Definition placement_new (p : addr) (T : Ty) (x : obj T) (s : State) : result State :=
  c ← load p s;
  s1 ← set_storage p (dyn T x :: storage_ c) s;
  Ok (emit (Constructed (InBuffer p) (dyn T x)) s1).

(** [std::destroy_at(static_cast<T*>(p))] *)
Definition destroy_at (T : Ty) (p : addr) (s : State) : result State :=
  x ← object_at T p s;
  c ← load p s;
  s1 ← set_storage p (tail (storage_ c)) s;
  Ok (emit (Destroyed (InBuffer p) (dyn T x)) s1).

(** The state [T(T&&)] leaves its argument in. *)
Definition moved_from (T : Ty) (src : addr) (x' : obj T) (s : State) : result State :=
  c ← load src s;
  set_storage src (dyn T x' :: tail (storage_ c)) s.

(** *** The dispatch table of a type *)

Definition vtable_for (T : Ty) : VTable := {|
  print_food_requirements := fun data s =>
    ptr ← object_at T data s;
    Ok (emit (Cout (method_print_food_requirements T ptr)) s);
  destroy := fun ptr s => destroy_at T ptr s;
  move := fun src dst s =>
    src_ptr ← object_at T src s;
    s1 ← placement_new dst T (fst (move_ctor T src_ptr)) s;
    s2 ← moved_from T src (snd (move_ctor T src_ptr)) s1;
    destroy_at T src s2
|}.

(** *** The container's member functions *)

(** Raw memory at [this] becomes a container whose members have their
    default member initializers: no object in [storage_], [vptr] as
    given. *)
Definition allocate (this : addr) (v : option Ty) (s : State) : result State :=
  match heap s !! this with
  | Some _ => Undefined
  | None => Ok (store this {| storage_ := []; vptr := v |} s)
  end.

(** [AnyAnimal(T obj)].  The two [static_assert]s are checked when the
    template is instantiated, see [static_asserts]; the by-value parameter
    [obj] is destroyed when the call is over. *)
Definition AnyAnimal_ctor (T : Ty) (o : obj T) (this : addr) (s : State) : result State :=
  s1 ← allocate this (Some T) s;
  s2 ← placement_new this T (fst (move_ctor T o)) s1;
  Ok (emit (Destroyed Automatic (dyn T (snd (move_ctor T o)))) s2).

(** [~AnyAnimal()]; afterwards the container is gone. *)
Definition AnyAnimal_dtor (this : addr) (s : State) : result State :=
  c ← load this s;
  s1 ← match vptr c with
       | Some T => destroy (vtable_for T) this s
       | None => Ok s
       end;
  Ok {| heap := delete this (heap s1); trace := trace s1 |}.

(** What the move constructor and the move assignment share: lines
    140-149 and 160-169. *)
Definition take (this other : addr) (s : State) : result State :=
  o ← load other s;
  match vptr o with
  | Some T =>
      s1 ← move (vtable_for T) other this s;
      o1 ← load other s1;
      s2 ← set_vptr this (vptr o1) s1;
      set_vptr other None s2
  | None => set_vptr this None s
  end.

(** [AnyAnimal(AnyAnimal&& other) noexcept] *)
Definition AnyAnimal_move_ctor (this other : addr) (s : State) : result State :=
  s1 ← allocate this None s;
  take this other s1.

(** [AnyAnimal& operator=(AnyAnimal&& other) noexcept] *)
Definition AnyAnimal_move_assign (this other : addr) (s : State) : result State :=
  if decide (this = other) then Ok s
  else
    c ← load this s;
    s1 ← match vptr c with
         | Some T => destroy (vtable_for T) this s
         | None => Ok s
         end;
    take this other s1.

(** [void print_food_requirements() const]: with [NDEBUG] the [assert]
    expands to nothing and a null [vptr] is dereferenced. *)
Definition AnyAnimal_print_food_requirements (this : addr) (s : State) : result State :=
  c ← load this s;
  match vptr c with
  | Some T => print_food_requirements (vtable_for T) this s
  | None =>
      if NDEBUG then Undefined
      else AssertionFailed "Empty AnyAnimal"
  end.

(** ** What the compiler accepts *)

(** The two [static_assert]s of [AnyAnimal(T obj)], evaluated when the
    constructor is instantiated for [T]: the messages of those that fail. *)
Definition static_asserts (T : Ty) : list string :=
  (if (sizeof T <=? BUFFER_SIZE)%N then [] else ["Object too big"]) ++
  (if (alignof T <=? ALIGNMENT)%N then [] else ["Alignment error"]).

Inductive ValueCategory : Type := lvalue | rvalue.

(** The expression a container is initialized or assigned from: a value of
    a concrete type, or an expression of type [AnyAnimal] ([const] or not)
    that designates the container at [other]. *)
Inductive Arg : Type :=
  | OfType (T : Ty) (o : obj T)
  | OfAnyAnimal (cat : ValueCategory) (is_const : bool) (other : addr).

(** The constructors, and the assignment operators, of the class. *)
Inductive Overload : Type :=
  | FromValue (T : Ty)
  | Copy
  | Move.

(** Overload resolution.  For a value of type [T] the template is
    instantiated with [T].  For an expression of type [AnyAnimal] the
    template is removed by its [enable_if]; [const AnyAnimal&] binds to
    every such expression, [AnyAnimal&&] binds to the rvalues that are not
    [const], and is the better match when it binds. *)
Definition binds_to_rvalue_reference (cat : ValueCategory) (is_const : bool) : bool :=
  match cat, is_const with
  | rvalue, false => true
  | _, _ => false
  end.

Definition resolve (a : Arg) : Overload :=
  match a with
  | OfType T _ => FromValue T
  | OfAnyAnimal cat is_const _ =>
      if binds_to_rvalue_reference cat is_const then Move else Copy
  end.

(** The uses of a container: initialization from an expression,
    assignment from an expression of type [AnyAnimal], a call of the method,
    and the end of its lifetime, at the addresses the compiler gives the
    objects. *)
Inductive Stmt : Type :=
  | Init (this : addr) (a : Arg)
  | Assign (this : addr) (cat : ValueCategory) (is_const : bool) (other : addr)
  | CallPrint (this : addr)
  | EndOfLifetime (this : addr).

(** What runs: there is no code for the two deleted functions. *)
Inductive Op : Type :=
  | OpCtor (T : Ty) (o : obj T) (this : addr)
  | OpMoveCtor (this other : addr)
  | OpMoveAssign (this other : addr)
  | OpPrint (this : addr)
  | OpDtor (this : addr).

Definition deleted (what : string) : list string :=
  ["use of deleted function " ++ what].

(** A statement compiles to the member function it calls, or is rejected
    with diagnostics. *)
Definition compile (st : Stmt) : list string + Op :=
  match st with
  | Init this a =>
      match resolve a, a with
      | FromValue T, OfType U o =>
          match static_asserts U with
          | [] => inr (OpCtor U o this)
          | msgs => inl msgs
          end
      | Move, OfAnyAnimal _ _ other => inr (OpMoveCtor this other)
      | _, _ => inl (deleted "AnyAnimal(const AnyAnimal&)")
      end
  | Assign this cat is_const other =>
      match resolve (OfAnyAnimal cat is_const other) with
      | Move => inr (OpMoveAssign this other)
      | _ => inl (deleted "operator=(const AnyAnimal&)")
      end
  | CallPrint this => inr (OpPrint this)
  | EndOfLifetime this => inr (OpDtor this)
  end.

Definition exec (op : Op) (s : State) : result State :=
  match op with
  | OpCtor T o this => AnyAnimal_ctor T o this s
  | OpMoveCtor this other => AnyAnimal_move_ctor this other s
  | OpMoveAssign this other => AnyAnimal_move_assign this other s
  | OpPrint this => AnyAnimal_print_food_requirements this s
  | OpDtor this => AnyAnimal_dtor this s
  end.

Fixpoint exec_all (ops : list Op) (s : State) : result State :=
  match ops with
  | [] => Ok s
  | op :: rest => s1 ← exec op s; exec_all rest s1
  end.

(** ** Reading a state *)

Definition initial : State := {| heap := ∅; trace := [] |}.

(** Everything written to [std::cout], in order. *)
Fixpoint cout (t : list Event) : string :=
  match t with
  | [] => ""
  | Cout s :: rest => s ++ cout rest
  | _ :: rest => cout rest
  end.

(** How many objects were constructed in, and destroyed in, the buffer of
    some container. *)
Definition in_buffer (w : Place) : bool :=
  match w with InBuffer _ => true | Automatic => false end.

Fixpoint constructions (t : list Event) : nat :=
  match t with
  | [] => 0
  | Constructed w _ :: rest => (if in_buffer w then 1 else 0) + constructions rest
  | _ :: rest => constructions rest
  end%nat.

Fixpoint destructions (t : list Event) : nat :=
  match t with
  | [] => 0
  | Destroyed w _ :: rest => (if in_buffer w then 1 else 0) + destructions rest
  | _ :: rest => destructions rest
  end%nat.

(** How many objects the buffers of the store hold. *)
Definition live (h : gmap addr AnyAnimal) : nat :=
  map_fold (fun _ c n => (length (storage_ c) + n)%nat) 0%nat h.

(** The two shapes of a well-formed container. *)
Definition empty_container : AnyAnimal := {| storage_ := []; vptr := None |}.

Definition holding (T : Ty) (x : obj T) : AnyAnimal :=
  {| storage_ := [dyn T x]; vptr := Some T |}.

(** The invariant of a container: a non-null [vptr] is the table of the
    type of the one object in the buffer, and that type passed the two
    [static_assert]s; with a null [vptr] the buffer holds no object. *)
Definition wf (c : AnyAnimal) : Prop :=
  match vptr c with
  | Some T =>
      (exists x : obj T, storage_ c = [dyn T x]) /\
      (sizeof T <= BUFFER_SIZE)%N /\ (alignof T <= ALIGNMENT)%N
  | None => storage_ c = []
  end.

Definition wf_state (s : State) : Prop :=
  forall p c, heap s !! p = Some c -> wf c.

End Container.

Arguments AnyAnimal Ty {_}.
Arguments State Ty {_}.
Arguments Event Ty {_}.
Arguments Op Ty {_}.
Arguments Stmt Ty {_}.
Arguments Arg Ty {_}.
Arguments Overload Ty : clear implicits.
Arguments initial {Ty _}.
Arguments empty_container {Ty _}.

(** ** [std::vector<AnyAnimal>]

    The elements of a vector are the containers at [start], [start + 1],
    ...  When the vector is full, [emplace_back] takes a larger block,
    constructs the new element in it, move-constructs the old elements into
    it (the move constructor is [noexcept]) and destroys the old ones.
    [growth] is the capacity the library asks for; blocks are taken from
    [brk] upwards and never reused. *)

Section Vector.
Context {Ty : Type} `{Concrete Ty}.
Variable NDEBUG : bool.
Variable growth : nat -> nat.

Record Vector : Type := {
  start : addr;
  size : nat;
  capacity : nat
}.

Definition offset (p : addr) (i : nat) : addr := Nat.iter i Pos.succ p.

Definition element (v : Vector) (i : nat) : addr := offset (start v) i.

(** The new element is built by [AnyAnimal(T obj)], whose parameter is
    move-constructed from the argument of [emplace_back]. *)
Definition construct_at (p : addr) (T : Ty) (arg : obj T) (s : State Ty) : result (State Ty) :=
  let o := fst (move_ctor T arg) in
  AnyAnimal_ctor T o p (emit (Constructed Automatic (dyn T o)) s).

Definition relocate (old new : addr) (n : nat) : list (Op Ty) :=
  (fun i => OpMoveCtor (offset new i) (offset old i)) <$> seq 0 n.

Definition destroy_range (first : addr) (n : nat) : list (Op Ty) :=
  (fun i => OpDtor (offset first i)) <$> seq 0 n.

Definition emplace_back (T : Ty) (arg : obj T) (v : Vector) (brk : addr) (s : State Ty)
  : result (Vector * addr * State Ty) :=
  if (size v <? capacity v)%nat then
    s1 ← construct_at (element v (size v)) T arg s;
    Ok ({| start := start v; size := S (size v); capacity := capacity v |}, brk, s1)
  else
    let n := Nat.max (growth (capacity v)) (S (size v)) in
    s1 ← construct_at (offset brk (size v)) T arg s;
    s2 ← exec_all NDEBUG (relocate (start v) brk (size v)) s1;
    s3 ← exec_all NDEBUG (destroy_range (start v) (size v)) s2;
    Ok ({| start := brk; size := S (size v); capacity := n |}, offset brk n, s3).

(** [v.emplace_back(T{...})]: the temporary is destroyed at the end of the
    full-expression. *)
Definition emplace_back_temporary (T : Ty) (tmp : obj T) (v : Vector) (brk : addr) (s : State Ty)
  : result (Vector * addr * State Ty) :=
  '(v1, brk1, s1) ← emplace_back T tmp v brk (emit (Constructed Automatic (dyn T tmp)) s);
  Ok (v1, brk1, emit (Destroyed Automatic (dyn T (snd (move_ctor T tmp)))) s1).

Definition endl : string := String "010"%char EmptyString.

(** [for (const auto& animal : v) { animal.print_food_requirements();
    std::cout << std::endl; }] *)
Fixpoint for_each_print (ps : list addr) (s : State Ty) : result (State Ty) :=
  match ps with
  | [] => Ok s
  | animal :: rest =>
      s1 ← AnyAnimal_print_food_requirements NDEBUG animal s;
      for_each_print rest (emit (Cout endl) s1)
  end.

Definition elements (v : Vector) : list addr := element v <$> seq 0 (size v).

Definition Vector_dtor (v : Vector) (s : State Ty) : result (State Ty) :=
  exec_all NDEBUG (destroy_range (start v) (size v)) s.

(** The order in which [~vector()] destroys the elements is the library's
    choice.  [Vector_dtor] goes from the first to the last;
    [Vector_dtor_in order] follows any given order of the indices. *)
Definition destroy_in (first : addr) (order : list nat) : list (Op Ty) :=
  (fun i => OpDtor (offset first i)) <$> order.

Definition Vector_dtor_in (order : list nat) (v : Vector) (s : State Ty) : result (State Ty) :=
  exec_all NDEBUG (destroy_in (start v) order) s.

End Vector.

(** ** The animals *)

Record Animal : Type := { name_ : string }.

Definition Animal_ctor (name : string) : Animal := {| name_ := name |}.

Definition Animal_print_food_requirements (a : Animal) : string :=
  name_ a ++ " needs: ".

Definition get_name (a : Animal) : string := name_ a.

Inductive AnimalClass : Type := Elephant | Zebra | Lion | Penguin.

#[global] Instance AnimalClass_eq_dec : EqDecision AnimalClass.
Proof. solve_decision. Defined.

Definition Elephant_ctor : Animal := Animal_ctor "Elephant".
Definition Zebra_ctor : Animal := Animal_ctor "Zebra".
Definition Lion_ctor : Animal := Animal_ctor "Lion".
Definition Penguin_ctor : Animal := Animal_ctor "Penguin".

Definition Elephant_print_food_requirements (a : Animal) : string :=
  Animal_print_food_requirements a ++ "hay, fruit, vegetables (300kg/day)".

Definition Zebra_print_food_requirements (a : Animal) : string :=
  Animal_print_food_requirements a ++ "hay, grass (15kg/day)".

Definition Lion_print_food_requirements (a : Animal) : string :=
  Animal_print_food_requirements a ++ "meat (11kg/day)".

Definition Penguin_print_food_requirements (a : Animal) : string :=
  Animal_print_food_requirements a ++ "fish (2kg/day)".

(** [Animal] declares its destructor, so it has no implicit move
    constructor; the implicit move constructor of a derived class
    initializes the [Animal] base with [Animal(const Animal&)], which copies
    [name_] and leaves the source as it was. *)
Definition Animal_move (a : Animal) : Animal * Animal := (a, a).

(** The four classes as [Concrete] types.  Their size and alignment depend
    on the platform. *)
Definition zoo (size_of_animal align_of_animal : N) : Concrete AnimalClass := {|
  obj := fun _ => Animal;
  sizeof := fun _ => size_of_animal;
  alignof := fun _ => align_of_animal;
  method_print_food_requirements := fun T =>
    match T with
    | Elephant => Elephant_print_food_requirements
    | Zebra => Zebra_print_food_requirements
    | Lion => Lion_print_food_requirements
    | Penguin => Penguin_print_food_requirements
    end;
  move_ctor := fun _ => Animal_move
|}.

(** ** [main] *)

Section Main.
Variable size_of_animal align_of_animal : N.
Variable NDEBUG : bool.
Variable growth : nat -> nat.

Let the_zoo : Concrete AnimalClass := zoo size_of_animal align_of_animal.
#[local] Existing Instance the_zoo.

Definition main : result (Z * State AnimalClass) :=
  let animal_roster := {| start := 1; size := 0; capacity := 0 |} in
  '(animal_roster, brk, s) ← emplace_back_temporary NDEBUG growth Lion Lion_ctor animal_roster 1%positive initial;
  '(animal_roster, brk, s) ← emplace_back_temporary NDEBUG growth Zebra Zebra_ctor animal_roster brk s;
  '(animal_roster, brk, s) ← emplace_back_temporary NDEBUG growth Elephant Elephant_ctor animal_roster brk s;
  s ← for_each_print NDEBUG (elements animal_roster) s;
  s ← Vector_dtor NDEBUG animal_roster s;
  Ok (0%Z, s).

End Main.

(** ** A type whose move constructor changes what it prints

    [struct Tally { unsigned n; explicit Tally(unsigned k) : n(k) {}
    Tally(Tally&& o) : n(o.n + 1) {} void print_food_requirements() const {
    for (unsigned i = 0; i < n; ++i) std::cout << "*"; } }]: it fits the
    buffer and defines the method, and every move adds a star. *)

Inductive TallyClass : Type := Tally.

#[global] Instance TallyClass_eq_dec : EqDecision TallyClass.
Proof. solve_decision. Defined.

Definition stars (n : nat) : string := Nat.iter n (String "*"%char) EmptyString.

Definition tally : Concrete TallyClass := {|
  obj := fun _ => nat;
  sizeof := fun _ => 4;
  alignof := fun _ => 4;
  method_print_food_requirements := fun _ n => stars n;
  move_ctor := fun _ n => (S n, n)
|}.

(** ** Calling the method on the value itself *)

Definition direct_call {Ty : Type} `{Concrete Ty} (T : Ty) (t : obj T) (s : State Ty) : State Ty :=
  emit (Cout (method_print_food_requirements T t)) s.

(** The container a move reads from, if the operation is a move. *)
Definition source_of {Ty : Type} `{Concrete Ty} (op : Op Ty) : option addr :=
  match op with
  | OpMoveCtor _ other | OpMoveAssign _ other => Some other
  | _ => None
  end.

(** The container an operation constructs or assigns to. *)
Definition target_of {Ty : Type} `{Concrete Ty} (op : Op Ty) : option addr :=
  match op with
  | OpCtor _ _ this | OpMoveCtor this _ | OpMoveAssign this _ => Some this
  | _ => None
  end.

(** What an operation that returns has done, on a store whose containers
    satisfy the invariant; [exec_outcome] below shows that [exec] has no
    other outcome there. *)
Inductive outcome {Ty : Type} `{Concrete Ty} (s : State Ty) : Op Ty -> State Ty -> Prop :=
  | ctor_done T (o : obj T) this :
      heap s !! this = None ->
      outcome s (OpCtor T o this)
        {| heap := <[this := holding T (fst (move_ctor T o))]> (heap s);
           trace := trace s ++ [Constructed (InBuffer this) (dyn T (fst (move_ctor T o)));
                                Destroyed Automatic (dyn T (snd (move_ctor T o)))] |}
  | move_ctor_done T (x : obj T) this other :
      heap s !! this = None -> heap s !! other = Some (holding T x) ->
      outcome s (OpMoveCtor this other)
        {| heap := <[other := empty_container]>
                     (<[this := holding T (fst (move_ctor T x))]> (heap s));
           trace := trace s ++ [Constructed (InBuffer this) (dyn T (fst (move_ctor T x)));
                                Destroyed (InBuffer other) (dyn T (snd (move_ctor T x)))] |}
  | move_ctor_nothing this other :
      heap s !! this = None ->
      other = this \/ heap s !! other = Some empty_container ->
      outcome s (OpMoveCtor this other)
        {| heap := <[this := empty_container]> (heap s); trace := trace s |}
  | move_assign_self_done this :
      outcome s (OpMoveAssign this this) s
  | move_assign_done this other c U (y : obj U) :
      this <> other ->
      heap s !! this = Some c -> heap s !! other = Some (holding U y) ->
      outcome s (OpMoveAssign this other)
        {| heap := <[other := empty_container]>
                     (<[this := holding U (fst (move_ctor U y))]> (heap s));
           trace := trace s ++ ((fun d => Destroyed (InBuffer this) d) <$> storage_ c) ++
                      [Constructed (InBuffer this) (dyn U (fst (move_ctor U y)));
                       Destroyed (InBuffer other) (dyn U (snd (move_ctor U y)))] |}
  | move_assign_nothing this other c :
      this <> other ->
      heap s !! this = Some c -> heap s !! other = Some empty_container ->
      outcome s (OpMoveAssign this other)
        {| heap := <[this := empty_container]> (heap s);
           trace := trace s ++ ((fun d => Destroyed (InBuffer this) d) <$> storage_ c) |}
  | print_done T (x : obj T) this :
      heap s !! this = Some (holding T x) ->
      outcome s (OpPrint this) (direct_call T x s)
  | dtor_done this c :
      heap s !! this = Some c ->
      outcome s (OpDtor this)
        {| heap := delete this (heap s);
           trace := trace s ++ ((fun d => Destroyed (InBuffer this) d) <$> storage_ c) |}.

(** ** Concrete platforms and stores for the examples *)

(** x86-64 with libstdc++: an [Animal] is a virtual table pointer and a
    32-byte [std::string]; [alignof(std::max_align_t)] is 16. *)
Definition zoo_x86_64 : Concrete AnimalClass := zoo 40 8.
Definition max_align_x86_64 : N := 16.

(** A platform on which an [Animal] would take 200 bytes. *)
Definition zoo_large : Concrete AnimalClass := zoo 200 8.

(** The store a sequence of operations leaves, started with no container,
    in a build without [NDEBUG]. *)
Definition run {Ty : Type} `{Concrete Ty} (ops : list (Op Ty)) : State Ty :=
  match exec_all false ops initial with
  | Ok s => s
  | _ => initial
  end.

(** A store with a Lion in the container at 1 and a Zebra in the one at
    2, and the values they hold. *)
Definition lion_and_zebra : State AnimalClass :=
  @run _ zoo_x86_64 [@OpCtor _ zoo_x86_64 Lion Lion_ctor 1%positive;
                     @OpCtor _ zoo_x86_64 Zebra Zebra_ctor 2%positive].

Definition the_lion : @Dyn _ zoo_x86_64 := existT Lion Lion_ctor.
Definition the_zebra : @Dyn _ zoo_x86_64 := existT Zebra Zebra_ctor.
Definition the_penguin : @Dyn _ zoo_x86_64 := existT Penguin Penguin_ctor.

(** ** A move constructor that throws

    In the functions above [T(T&&)] returns.  It may also throw:
    [move_throws T x] tells whether it does on the source object [x].  The
    container calls it at line 126, in the constructor from a value, from
    which the exception propagates to the caller, and at line 113, in the
    table's [move], which lines 144 and 164 call inside the two [noexcept]
    moves: an exception that would leave a [noexcept] function ends the
    program in [std::terminate]. *)

Inductive completion (A : Type) : Type :=
  | Normal (r : result A)
  | Thrown
  | Terminated.
Arguments Normal {A} r.
Arguments Thrown {A}.
Arguments Terminated {A}.

#[global] Instance completion_bind : MBind completion := fun A B f m =>
  match m with
  | Normal (Ok a) => f a
  | Normal (AssertionFailed msg) => Normal (AssertionFailed msg)
  | Normal Undefined => Normal Undefined
  | Thrown => Thrown
  | Terminated => Terminated
  end.

(** What the [noexcept] specifier makes of a function body. *)
Definition noexcept {A : Type} (body : completion A) : completion A :=
  match body with
  | Thrown => Terminated
  | _ => body
  end.

Section Exceptions.
Context {Ty : Type} `{Concrete Ty}.
Variable move_throws : forall T : Ty, obj T -> bool.

(** [AnyAnimal(T obj)], lines 122-127: the exception leaves line 126. *)
Definition AnyAnimal_ctor_throwing (T : Ty) (o : obj T) (this : addr) (s : State Ty)
  : completion (State Ty) :=
  s1 ← Normal (allocate this (Some T) s);
  if move_throws T o then Thrown
  else
    Normal (s2 ← placement_new this T (fst (move_ctor T o)) s1;
            Ok (emit (Destroyed Automatic (dyn T (snd (move_ctor T o)))) s2)).

(** The table's [move], lines 111-114: the exception leaves line 113, before
    anything is constructed or destroyed. *)
Definition move_throwing (T : Ty) (src dst : addr) (s : State Ty) : completion (State Ty) :=
  src_ptr ← Normal (object_at T src s);
  if move_throws T src_ptr then Thrown
  else Normal (move (vtable_for T) src dst s).

(** Lines 140-149 and 160-169. *)
Definition take_throwing (this other : addr) (s : State Ty) : completion (State Ty) :=
  o ← Normal (load other s);
  match vptr o with
  | Some T =>
      s1 ← move_throwing T other this s;
      Normal (o1 ← load other s1;
              s2 ← set_vptr this (vptr o1) s1;
              set_vptr other None s2)
  | None => Normal (set_vptr this None s)
  end.

(** [AnyAnimal(AnyAnimal&& other) noexcept] *)
Definition AnyAnimal_move_ctor_noexcept (this other : addr) (s : State Ty)
  : completion (State Ty) :=
  noexcept (s1 ← Normal (allocate this None s);
            take_throwing this other s1).

(** [AnyAnimal& operator=(AnyAnimal&& other) noexcept] *)
Definition AnyAnimal_move_assign_noexcept (this other : addr) (s : State Ty)
  : completion (State Ty) :=
  noexcept (if decide (this = other) then Normal (Ok s)
            else
              s1 ← Normal (c ← load this s;
                           match vptr c with
                           | Some T => destroy (vtable_for T) this s
                           | None => Ok s
                           end);
              take_throwing this other s1).

End Exceptions.

(** [struct Fuse { unsigned n; explicit Fuse(unsigned k) : n(k) {}
    Fuse(Fuse&& o) : n(o.n + 1) { if (o.n > 0) throw std::runtime_error(...); }
    void print_food_requirements() const { ... } }]: [Tally], except that
    the move constructor throws when its source already has a star.  A
    container can be built from [Fuse{0}]; the value it then holds has one
    star. *)
Definition Fuse_move_throws : forall T : TallyClass, @obj _ tally T -> bool :=
  fun _ n => (0 <? n)%nat.

(** Types none of whose move constructors throws. *)
Definition never_throws {Ty : Type} `{Concrete Ty} : forall T : Ty, obj T -> bool :=
  fun _ _ => false.

(** ** A roster of any length

    [main] with any sequence of values in place of the three animals: each
    is passed to [emplace_back] as a temporary, then the loop, then the end
    of the vector. *)

Section Roster.
Context {Ty : Type} `{Concrete Ty}.
Variable NDEBUG : bool.
Variable growth : nat -> nat.

(** The object a relocation makes of the object [d]. *)
Definition relocated (d : Dyn) : Dyn :=
  dyn (projT1 d) (fst (move_ctor (projT1 d) (projT2 d))).

Definition holding_dyn (d : Dyn) : AnyAnimal Ty := holding (projT1 d) (projT2 d).

(** The vector [v], with free memory from [brk] on, holds the values
    [vals]: its elements are the containers of the first [size v] places of
    its block, in order, and the store has no other container. *)
Definition represents (v : Vector) (brk : addr) (s : State Ty) (vals : list Dyn) : Prop :=
  size v = length vals /\
  (size v <= capacity v)%nat /\
  (Pos.to_nat (start v) + capacity v <= Pos.to_nat brk)%nat /\
  (forall i d, vals !! i = Some d -> heap s !! element v i = Some (holding_dyn d)) /\
  (forall p, is_Some (heap s !! p) -> exists i, (i < size v)%nat /\ p = element v i).

Fixpoint emplace_all (vals : list Dyn) (v : Vector) (brk : addr) (s : State Ty)
  : result (Vector * addr * State Ty) :=
  match vals with
  | [] => Ok (v, brk, s)
  | d :: rest =>
      '(v1, brk1, s1) ← emplace_back_temporary NDEBUG growth (projT1 d) (projT2 d) v brk s;
      emplace_all rest v1 brk1 s1
  end.

Definition roster_program (vals : list Dyn) : result (Z * State Ty) :=
  let animal_roster := {| start := 1; size := 0; capacity := 0 |} in
  '(animal_roster, brk, s) ← emplace_all vals animal_roster 1%positive initial;
  s ← for_each_print NDEBUG (elements animal_roster) s;
  s ← Vector_dtor NDEBUG animal_roster s;
  Ok (0%Z, s).

End Roster.

(** * Properties *)

Open Scope list_scope.

(** Lookups in a store after insertions and deletions. *)
Ltac lookups :=
  repeat first
    [ rewrite lookup_insert_eq
    | rewrite lookup_insert_ne by congruence
    | rewrite lookup_delete_eq
    | rewrite lookup_delete_ne by congruence ].

Section Properties.
Context {Ty : Type} `{Concrete Ty}.
Variable alignof_max_align_t : N.
Variable NDEBUG : bool.

Implicit Types (T : Ty) (s : State Ty) (c : AnyAnimal Ty) (p this other : addr).

Lemma cast_dyn T (x : obj T) : cast T (dyn T x) = Some x.
Proof.
  unfold cast, dyn. destruct (decide (T = T)) as [e|ne]; [|done].
  by rewrite (proof_irrel e eq_refl).
Qed.

Lemma load_Some p s c : heap s !! p = Some c -> load p s = Ok c.
Proof. unfold load. by intros ->. Qed.

Lemma object_at_head T (x : obj T) p s c l :
  heap s !! p = Some c -> storage_ c = dyn T x :: l -> object_at T p s = Ok x.
Proof.
  intros Hp Hc. unfold object_at. rewrite (load_Some _ _ _ Hp). simpl.
  by rewrite Hc, cast_dyn.
Qed.

Lemma state_eq s1 s2 : heap s1 = heap s2 -> trace s1 = trace s2 -> s1 = s2.
Proof. destruct s1, s2; simpl; congruence. Qed.

Lemma destroy_at_head T (x : obj T) p s c l :
  heap s !! p = Some c -> storage_ c = dyn T x :: l ->
  destroy_at T p s =
    Ok {| heap := <[p := {| storage_ := l; vptr := vptr c |}]> (heap s);
          trace := trace s ++ [Destroyed (InBuffer p) (dyn T x)] |}.
Proof.
  intros Hp Hc. unfold destroy_at. rewrite (object_at_head _ _ _ _ _ _ Hp Hc). simpl.
  unfold set_storage. rewrite (load_Some _ _ _ Hp). simpl. by rewrite Hc.
Qed.

Lemma placement_new_at T (x : obj T) p s c :
  heap s !! p = Some c ->
  placement_new p T x s =
    Ok {| heap := <[p := {| storage_ := dyn T x :: storage_ c; vptr := vptr c |}]> (heap s);
          trace := trace s ++ [Constructed (InBuffer p) (dyn T x)] |}.
Proof.
  intros Hp. unfold placement_new, set_storage. by rewrite (load_Some _ _ _ Hp).
Qed.

(** *** What each member function does on a well-formed store *)

Lemma wf_cases c :
  wf alignof_max_align_t c ->
  c = empty_container \/
  exists T (x : obj T), c = holding T x /\
    (sizeof T <= BUFFER_SIZE)%N /\ (alignof T <= ALIGNMENT alignof_max_align_t)%N.
Proof.
  unfold wf. destruct c as [l [T|]]; simpl.
  - intros [[x ->] Hfit]. right. by exists T, x.
  - intros ->. by left.
Qed.

Lemma ctor_spec T (o : obj T) this s :
  heap s !! this = None ->
  AnyAnimal_ctor T o this s =
    Ok {| heap := <[this := holding T (fst (move_ctor T o))]> (heap s);
          trace := trace s ++ [Constructed (InBuffer this) (dyn T (fst (move_ctor T o)));
                               Destroyed Automatic (dyn T (snd (move_ctor T o)))] |}.
Proof.
  intros Hthis. unfold AnyAnimal_ctor, allocate. rewrite Hthis. simpl.
  erewrite placement_new_at by (simpl; apply lookup_insert_eq). simpl.
  f_equal. apply state_eq; simpl.
  - by rewrite insert_insert_eq.
  - by rewrite <- app_assoc.
Qed.

Lemma dtor_holding T (x : obj T) this s :
  heap s !! this = Some (holding T x) ->
  AnyAnimal_dtor this s =
    Ok {| heap := delete this (heap s);
          trace := trace s ++ [Destroyed (InBuffer this) (dyn T x)] |}.
Proof.
  intros Hthis. unfold AnyAnimal_dtor. rewrite (load_Some _ _ _ Hthis). simpl.
  erewrite destroy_at_head by (try apply Hthis; done). simpl.
  by rewrite delete_insert_eq.
Qed.

Lemma dtor_empty this s c :
  heap s !! this = Some c -> vptr c = None ->
  AnyAnimal_dtor this s = Ok {| heap := delete this (heap s); trace := trace s |}.
Proof.
  intros Hthis Hv. unfold AnyAnimal_dtor. rewrite (load_Some _ _ _ Hthis). simpl.
  by rewrite Hv.
Qed.

Lemma move_spec T (x : obj T) src dst s c :
  src <> dst ->
  heap s !! src = Some (holding T x) -> heap s !! dst = Some c ->
  move (vtable_for T) src dst s =
    Ok {| heap := <[src := {| storage_ := []; vptr := Some T |}]>
                    (<[dst := {| storage_ := dyn T (fst (move_ctor T x)) :: storage_ c;
                                 vptr := vptr c |}]> (heap s));
          trace := trace s ++ [Constructed (InBuffer dst) (dyn T (fst (move_ctor T x)));
                               Destroyed (InBuffer src) (dyn T (snd (move_ctor T x)))] |}.
Proof.
  intros Hne Hsrc Hdst. simpl.
  erewrite object_at_head by (try apply Hsrc; done). simpl.
  erewrite placement_new_at by apply Hdst. simpl.
  unfold moved_from, set_storage, load. simpl.
  rewrite lookup_insert_ne by done. rewrite Hsrc. simpl.
  erewrite destroy_at_head; [| simpl; apply lookup_insert_eq | done ]. simpl.
  f_equal. apply state_eq; simpl.
  - by rewrite insert_insert_eq.
  - by rewrite <- app_assoc.
Qed.

Lemma take_holding T (x : obj T) this other s c :
  this <> other ->
  heap s !! other = Some (holding T x) ->
  heap s !! this = Some c -> storage_ c = [] ->
  take this other s =
    Ok {| heap := <[other := empty_container]>
                    (<[this := holding T (fst (move_ctor T x))]> (heap s));
          trace := trace s ++ [Constructed (InBuffer this) (dyn T (fst (move_ctor T x)));
                               Destroyed (InBuffer other) (dyn T (snd (move_ctor T x)))] |}.
Proof.
  intros Hne Hother Hthis Hc. unfold take. rewrite (load_Some _ _ _ Hother).
  cbn [mbind result_bind vptr holding].
  erewrite move_spec by (try apply Hother; try apply Hthis; done). rewrite Hc.
  cbn [mbind result_bind]. unfold set_vptr, load. simpl.
  rewrite lookup_insert_eq. simpl.
  rewrite lookup_insert_ne by done. rewrite lookup_insert_eq. simpl.
  rewrite lookup_insert_ne by done. rewrite lookup_insert_eq. simpl.
  f_equal. apply state_eq; simpl; [|done].
  apply map_eq; intros k.
  destruct (decide (k = other)) as [->|]; [by lookups|].
  destruct (decide (k = this)) as [->|]; by lookups.
Qed.

Lemma take_empty this other s o c :
  heap s !! other = Some o -> vptr o = None -> heap s !! this = Some c ->
  take this other s =
    Ok {| heap := <[this := {| storage_ := storage_ c; vptr := None |}]> (heap s);
          trace := trace s |}.
Proof.
  intros Hother Hv Hthis. unfold take. rewrite (load_Some _ _ _ Hother). simpl.
  rewrite Hv. unfold set_vptr. by rewrite (load_Some _ _ _ Hthis).
Qed.

Lemma move_ctor_holding T (x : obj T) this other s :
  heap s !! this = None -> heap s !! other = Some (holding T x) ->
  AnyAnimal_move_ctor this other s =
    Ok {| heap := <[other := empty_container]>
                    (<[this := holding T (fst (move_ctor T x))]> (heap s));
          trace := trace s ++ [Constructed (InBuffer this) (dyn T (fst (move_ctor T x)));
                               Destroyed (InBuffer other) (dyn T (snd (move_ctor T x)))] |}.
Proof.
  intros Hthis Hother. assert (this <> other) as Hne by congruence.
  unfold AnyAnimal_move_ctor, allocate. rewrite Hthis. cbn [mbind result_bind].
  erewrite take_holding with (c := empty_container);
    [| done | simpl; by lookups | simpl; by lookups | done ].
  simpl. by rewrite insert_insert_eq.
Qed.

Lemma move_ctor_empty this other s o :
  heap s !! this = None -> heap s !! other = Some o -> vptr o = None ->
  AnyAnimal_move_ctor this other s =
    Ok {| heap := <[this := empty_container]> (heap s); trace := trace s |}.
Proof.
  intros Hthis Hother Hv. assert (this <> other) as Hne by congruence.
  unfold AnyAnimal_move_ctor, allocate. rewrite Hthis. cbn [mbind result_bind].
  erewrite take_empty with (c := empty_container);
    [| simpl; lookups; apply Hother | done | simpl; by lookups ].
  simpl. by rewrite insert_insert_eq.
Qed.

Lemma move_assign_self this s : AnyAnimal_move_assign this this s = Ok s.
Proof. unfold AnyAnimal_move_assign. by rewrite decide_True. Qed.

Lemma move_assign_holding_holding T (x : obj T) U (y : obj U) this other s :
  this <> other ->
  heap s !! this = Some (holding T x) -> heap s !! other = Some (holding U y) ->
  AnyAnimal_move_assign this other s =
    Ok {| heap := <[other := empty_container]>
                    (<[this := holding U (fst (move_ctor U y))]> (heap s));
          trace := trace s ++ [Destroyed (InBuffer this) (dyn T x);
                               Constructed (InBuffer this) (dyn U (fst (move_ctor U y)));
                               Destroyed (InBuffer other) (dyn U (snd (move_ctor U y)))] |}.
Proof.
  intros Hne Hthis Hother. unfold AnyAnimal_move_assign.
  rewrite decide_False by done. rewrite (load_Some _ _ _ Hthis).
  cbn [mbind result_bind vptr holding destroy vtable_for].
  erewrite destroy_at_head by (try apply Hthis; done). cbn [mbind result_bind].
  erewrite take_holding; [| done | simpl; lookups; apply Hother | simpl; by lookups | done ].
  simpl. rewrite insert_insert_eq. by rewrite <- app_assoc.
Qed.

Lemma move_assign_holding_empty T (x : obj T) this other s o :
  this <> other ->
  heap s !! this = Some (holding T x) -> heap s !! other = Some o -> vptr o = None ->
  AnyAnimal_move_assign this other s =
    Ok {| heap := <[this := empty_container]> (heap s);
          trace := trace s ++ [Destroyed (InBuffer this) (dyn T x)] |}.
Proof.
  intros Hne Hthis Hother Hv. unfold AnyAnimal_move_assign.
  rewrite decide_False by done. rewrite (load_Some _ _ _ Hthis).
  cbn [mbind result_bind vptr holding destroy vtable_for].
  erewrite destroy_at_head by (try apply Hthis; done). cbn [mbind result_bind].
  erewrite take_empty; [| simpl; lookups; apply Hother | done | simpl; by lookups ].
  simpl. by rewrite insert_insert_eq.
Qed.

Lemma move_assign_empty_holding U (y : obj U) this other s :
  this <> other ->
  heap s !! this = Some empty_container -> heap s !! other = Some (holding U y) ->
  AnyAnimal_move_assign this other s =
    Ok {| heap := <[other := empty_container]>
                    (<[this := holding U (fst (move_ctor U y))]> (heap s));
          trace := trace s ++ [Constructed (InBuffer this) (dyn U (fst (move_ctor U y)));
                               Destroyed (InBuffer other) (dyn U (snd (move_ctor U y)))] |}.
Proof.
  intros Hne Hthis Hother. unfold AnyAnimal_move_assign.
  rewrite decide_False by done. rewrite (load_Some _ _ _ Hthis).
  cbn [mbind result_bind vptr empty_container].
  by erewrite take_holding.
Qed.

Lemma move_assign_empty_empty this other s o :
  this <> other ->
  heap s !! this = Some empty_container -> heap s !! other = Some o -> vptr o = None ->
  AnyAnimal_move_assign this other s = Ok s.
Proof.
  intros Hne Hthis Hother Hv. unfold AnyAnimal_move_assign.
  rewrite decide_False by done. rewrite (load_Some _ _ _ Hthis).
  cbn [mbind result_bind vptr empty_container].
  erewrite take_empty by done. f_equal. apply state_eq; simpl; [|done].
  by apply insert_id.
Qed.

Lemma print_holding T (x : obj T) this s :
  heap s !! this = Some (holding T x) ->
  AnyAnimal_print_food_requirements NDEBUG this s = Ok (direct_call T x s).
Proof.
  intros Hthis. unfold AnyAnimal_print_food_requirements.
  rewrite (load_Some _ _ _ Hthis). cbn [mbind result_bind vptr holding].
  cbn [print_food_requirements vtable_for].
  by erewrite object_at_head by (try apply Hthis; done).
Qed.

Lemma print_empty this s c :
  heap s !! this = Some c -> vptr c = None ->
  AnyAnimal_print_food_requirements NDEBUG this s =
    if NDEBUG then Undefined else AssertionFailed "Empty AnyAnimal".
Proof.
  intros Hthis Hv. unfold AnyAnimal_print_food_requirements.
  rewrite (load_Some _ _ _ Hthis). simpl. by rewrite Hv.
Qed.

(** *** The invariant *)

Lemma wf_empty_container : wf alignof_max_align_t (@empty_container Ty _).
Proof. done. Qed.

Lemma wf_holding T (x : obj T) :
  (sizeof T <= BUFFER_SIZE)%N -> (alignof T <= ALIGNMENT alignof_max_align_t)%N ->
  wf alignof_max_align_t (holding T x).
Proof. intros Hs Ha. unfold wf; simpl. split; [by exists x | done]. Qed.

Lemma wf_holding_inv T (x : obj T) :
  wf alignof_max_align_t (holding T x) ->
  (sizeof T <= BUFFER_SIZE)%N /\ (alignof T <= ALIGNMENT alignof_max_align_t)%N.
Proof. unfold wf; simpl. tauto. Qed.

Lemma wf_state_insert p c h t t' :
  wf_state alignof_max_align_t {| heap := h; trace := t |} ->
  wf alignof_max_align_t c ->
  wf_state alignof_max_align_t {| heap := <[p := c]> h; trace := t' |}.
Proof.
  intros Hs Hc q c'. simpl. destruct (decide (p = q)) as [->|Hne].
  - rewrite lookup_insert_eq. by intros [= <-].
  - rewrite lookup_insert_ne by done. apply (Hs q c').
Qed.

Lemma wf_state_delete p h t t' :
  wf_state alignof_max_align_t {| heap := h; trace := t |} ->
  wf_state alignof_max_align_t {| heap := delete p h; trace := t' |}.
Proof.
  intros Hs q c'. simpl. intros Hq. apply (Hs q c'). simpl.
  by apply lookup_delete_Some in Hq as [_ Hq].
Qed.

Lemma wf_state_trace s t :
  wf_state alignof_max_align_t s ->
  wf_state alignof_max_align_t {| heap := heap s; trace := t |}.
Proof. intros Hs q c'. apply Hs. Qed.

Lemma static_asserts_nil T :
  static_asserts alignof_max_align_t T = [] <->
  (sizeof T <= BUFFER_SIZE)%N /\ (alignof T <= ALIGNMENT alignof_max_align_t)%N.
Proof.
  unfold static_asserts.
  destruct (N.leb_spec (sizeof T) BUFFER_SIZE), (N.leb_spec (alignof T) (ALIGNMENT alignof_max_align_t));
    simpl; split; try done; intros [? ?]; lia.
Qed.

(** *** Construction from a value, then a call *)

(** C1 (amended).  For every type [T] that passes the two [static_assert]s
    and whose move constructor gives the new object the same
    [print_food_requirements] output as its source, constructing a container
    from a value [t] in raw memory compiles and succeeds, and calling
    [print_food_requirements] on the container then has exactly the effect
    of calling [t.print_food_requirements()]: the same characters are
    written to [std::cout] and nothing else changes. *)
Theorem C1_construct_then_print T (t : obj T) this s :
  (sizeof T <= BUFFER_SIZE)%N ->
  (alignof T <= ALIGNMENT alignof_max_align_t)%N ->
  heap s !! this = None ->
  method_print_food_requirements T (fst (move_ctor T t)) =
    method_print_food_requirements T t ->
  exists s1,
    compile alignof_max_align_t (Init this (OfType T t)) = inr (OpCtor T t this) /\
    exec NDEBUG (OpCtor T t this) s = Ok s1 /\
    exec NDEBUG (OpPrint this) s1 = Ok (direct_call T t s1).
Proof.
  intros Hsize Halign Hraw Hsame. eexists. split; [|split].
  - cbn [compile resolve]. by rewrite (proj2 (static_asserts_nil T)).
  - cbn [exec]. by apply ctor_spec.
  - cbn [exec]. erewrite print_holding by (simpl; apply lookup_insert_eq).
    unfold direct_call. by rewrite Hsame.
Qed.

(** *** Moves *)


(** *** Every operation, case by case *)

Lemma compile_ctor_fits st T (o : obj T) this :
  compile alignof_max_align_t st = inr (OpCtor T o this) ->
  (sizeof T <= BUFFER_SIZE)%N /\ (alignof T <= ALIGNMENT alignof_max_align_t)%N.
Proof.
  destruct st as [this' [U o'|cat k other]|this' cat k other|this'|this']; simpl.
  - destruct (static_asserts alignof_max_align_t U) eqn:E; [|done].
    intros Heq. assert (U = T) as -> by (by inversion Heq).
    by apply static_asserts_nil.
  - by destruct cat, k.
  - by destruct cat, k.
  - done.
  - done.
Qed.

Lemma exec_outcome op s s' :
  wf_state alignof_max_align_t s -> exec NDEBUG op s = Ok s' -> outcome s op s'.
Proof.
  intros Hwf. destruct op as [T o this|this other|this other|this|this]; cbn [exec].
  - destruct (heap s !! this) as [c|] eqn:Hthis.
    + unfold AnyAnimal_ctor, allocate. by rewrite Hthis.
    + rewrite ctor_spec by done. intros [= <-]. by constructor.
  - destruct (heap s !! this) as [c|] eqn:Hthis.
    { unfold AnyAnimal_move_ctor, allocate. by rewrite Hthis. }
    destruct (decide (other = this)) as [->|Hne].
    { unfold AnyAnimal_move_ctor, allocate. rewrite Hthis. cbn [mbind result_bind].
      erewrite take_empty with (o := empty_container) (c := empty_container)
        by (simpl; try by lookups; done).
      simpl. rewrite insert_insert_eq. intros [= <-]. constructor; auto. }
    destruct (heap s !! other) as [o|] eqn:Hother.
    + destruct (wf_cases o (Hwf _ _ Hother)) as [-> | (T & x & -> & _)].
      * erewrite move_ctor_empty by done. intros [= <-]. constructor; auto.
      * erewrite move_ctor_holding by done. intros [= <-]. by constructor.
    + unfold AnyAnimal_move_ctor, allocate. rewrite Hthis. cbn [mbind result_bind].
      unfold take, load. simpl. lookups. by rewrite Hother.
  - destruct (decide (this = other)) as [->|Hne].
    { rewrite move_assign_self. intros [= <-]. constructor. }
    destruct (heap s !! this) as [c|] eqn:Hthis.
    2:{ unfold AnyAnimal_move_assign, load. rewrite decide_False, Hthis; done. }
    destruct (heap s !! other) as [o|] eqn:Hother.
    2:{ unfold AnyAnimal_move_assign. rewrite decide_False by done.
        rewrite (load_Some _ _ _ Hthis). cbn [mbind result_bind].
        destruct (wf_cases c (Hwf _ _ Hthis)) as [-> | (T & x & -> & _)].
        - cbn [mbind result_bind vptr empty_container]. unfold take, load. by rewrite Hother.
        - cbn [mbind result_bind vptr holding destroy vtable_for].
          erewrite destroy_at_head by (try apply Hthis; done). cbn [mbind result_bind].
          unfold take, load. simpl. lookups. by rewrite Hother. }
    destruct (wf_cases c (Hwf _ _ Hthis)) as [-> | (T & x & -> & _)];
      destruct (wf_cases o (Hwf _ _ Hother)) as [-> | (U & y & -> & _)].
    + erewrite move_assign_empty_empty by done. intros [= <-].
      pose proof (move_assign_nothing s this other empty_container Hne Hthis Hother) as Ho.
      simpl in Ho. rewrite app_nil_r, insert_id in Ho by done. by destruct s.
    + erewrite move_assign_empty_holding by done. intros [= <-].
      by apply (move_assign_done s this other empty_container U y).
    + erewrite move_assign_holding_empty by done. intros [= <-].
      by apply (move_assign_nothing s this other (holding T x)).
    + erewrite move_assign_holding_holding by done. intros [= <-].
      by apply (move_assign_done s this other (holding T x) U y).
  - destruct (heap s !! this) as [c|] eqn:Hthis.
    2:{ unfold AnyAnimal_print_food_requirements, load. by rewrite Hthis. }
    destruct (wf_cases c (Hwf _ _ Hthis)) as [-> | (T & x & -> & _)].
    + erewrite print_empty by done. by destruct NDEBUG.
    + erewrite print_holding by done. intros [= <-]. by constructor.
  - destruct (heap s !! this) as [c|] eqn:Hthis.
    2:{ unfold AnyAnimal_dtor, load. by rewrite Hthis. }
    destruct (wf_cases c (Hwf _ _ Hthis)) as [-> | (T & x & -> & _)].
    + erewrite dtor_empty by done. intros [= <-].
      pose proof (dtor_done s this empty_container Hthis) as Ho.
      simpl in Ho. by rewrite app_nil_r in Ho.
    + erewrite dtor_holding by done. intros [= <-].
      by apply (dtor_done s this (holding T x)).
Qed.

Lemma outcome_wf op s s' :
  wf_state alignof_max_align_t s ->
  (forall T (o : obj T) this, op = OpCtor T o this ->
     (sizeof T <= BUFFER_SIZE)%N /\ (alignof T <= ALIGNMENT alignof_max_align_t)%N) ->
  outcome s op s' -> wf_state alignof_max_align_t s'.
Proof.
  intros Hwf Hfit Hout. destruct s as [h t].
  destruct Hout; simpl in *.
  - apply wf_state_insert with (t := t); [done|].
    by apply wf_holding; eapply Hfit.
  - apply wf_state_insert with (t := t); [|apply wf_empty_container].
    apply wf_state_insert with (t := t); [done|].
    apply wf_holding; by apply (wf_holding_inv T x), (Hwf other).
  - apply wf_state_insert with (t := t); [done | apply wf_empty_container].
  - done.
  - apply wf_state_insert with (t := t); [|apply wf_empty_container].
    apply wf_state_insert with (t := t); [done|].
    apply wf_holding; by apply (wf_holding_inv U y), (Hwf other).
  - apply wf_state_insert with (t := t); [done | apply wf_empty_container].
  - by apply (wf_state_trace {| heap := h; trace := t |}).
  - by apply wf_state_delete with (t := t).
Qed.

Lemma outcome_empty_origin op s s' p c' :
  wf_state alignof_max_align_t s ->
  outcome s op s' ->
  heap s' !! p = Some c' -> vptr c' = None ->
  (exists c, heap s !! p = Some c /\ vptr c = None) \/
  source_of op = Some p \/
  (target_of op = Some p /\
   exists other o, source_of op = Some other /\ heap s !! other = Some o /\ vptr o = None).
Proof.
  intros Hwf Hout. destruct Hout; simpl.
  - destruct (decide (p = this)) as [->|]; lookups; [by intros [= <-]|eauto].
  - destruct (decide (p = other)) as [->|]; lookups; [auto|].
    destruct (decide (p = this)) as [->|]; lookups; [by intros [= <-]|eauto].
  - destruct (decide (p = this)) as [->|]; lookups; [|eauto].
    intros _ _. match goal with Hor : _ \/ _ |- _ => destruct Hor as [->|Hother] end; [auto|].
    right; right. split; [done|]. by exists other, empty_container.
  - eauto.
  - destruct (decide (p = other)) as [->|]; lookups; [auto|].
    destruct (decide (p = this)) as [->|]; lookups; [by intros [= <-]|eauto].
  - destruct (decide (p = this)) as [->|]; lookups; [|eauto].
    intros _ _. right; right. split; [done|]. by exists other, empty_container.
  - eauto.
  - destruct (decide (p = this)) as [->|]; lookups; [done|eauto].
Qed.

Lemma exec_wf st op s s' :
  wf_state alignof_max_align_t s ->
  compile alignof_max_align_t st = inr op ->
  exec NDEBUG op s = Ok s' ->
  wf_state alignof_max_align_t s'.
Proof.
  intros Hwf Hcompile Hexec. eapply outcome_wf; [done| |by apply exec_outcome].
  intros T o this ->. by eapply compile_ctor_fits.
Qed.

(** C3 (amended).  Every operation that compiles and returns preserves the
    invariant of every container of the store: a non-null [vptr] is the
    table of the type of the one object in [storage_], a type that passed
    the two [static_assert]s, and with a null [vptr] the buffer holds no
    object; a buffer never holds two objects.  Construction from a value
    yields a non-empty container.  A container that is empty after an
    operation was empty before it, or is the source of the move the
    operation performs, or is the destination of a move whose source was
    already empty. *)
Theorem C3_invariant_preserved st op s s' :
  wf_state alignof_max_align_t s ->
  compile alignof_max_align_t st = inr op ->
  exec NDEBUG op s = Ok s' ->
  wf_state alignof_max_align_t s' /\
  (forall p c, heap s' !! p = Some c -> (length (storage_ c) <= 1)%nat) /\
  (forall T (o : obj T) this, op = OpCtor T o this ->
     heap s' !! this = Some (holding T (fst (move_ctor T o)))) /\
  (forall p c', heap s' !! p = Some c' -> vptr c' = None ->
     (exists c, heap s !! p = Some c /\ vptr c = None) \/
     source_of op = Some p \/
     (target_of op = Some p /\
      exists other o, source_of op = Some other /\ heap s !! other = Some o /\ vptr o = None)).
Proof.
  intros Hwf Hcompile Hexec.
  pose proof (exec_outcome _ _ _ Hwf Hexec) as Hout.
  pose proof (exec_wf _ _ _ _ Hwf Hcompile Hexec) as Hwf'.
  split; [done|]. split; [|split].
  - intros p c Hc. destruct (wf_cases c (Hwf' _ _ Hc)) as [-> | (T & x & -> & _)]; simpl; lia.
  - intros T o this ->. cbn [exec] in Hexec.
    destruct (heap s !! this) as [c|] eqn:Hthis.
    + unfold AnyAnimal_ctor, allocate in Hexec. by rewrite Hthis in Hexec.
    + rewrite ctor_spec in Hexec by done. injection Hexec as <-. simpl. by lookups.
  - intros p c'. by eapply outcome_empty_origin.
Qed.

(** *** Counting constructions and destructions *)

Lemma constructions_app (t1 t2 : list (Event Ty)) :
  constructions (t1 ++ t2) = (constructions t1 + constructions t2)%nat.
Proof. induction t1 as [|[] t1 IH]; simpl; lia. Qed.

Lemma destructions_app (t1 t2 : list (Event Ty)) :
  destructions (t1 ++ t2) = (destructions t1 + destructions t2)%nat.
Proof. induction t1 as [|[] t1 IH]; simpl; lia. Qed.

Lemma constructions_destroyed this (l : list Dyn) :
  constructions ((fun d => Destroyed (InBuffer this) d) <$> l) = 0%nat.
Proof. by induction l. Qed.

Lemma destructions_destroyed this (l : list Dyn) :
  destructions ((fun d => Destroyed (InBuffer this) d) <$> l) = length l.
Proof. induction l; simpl; auto. Qed.

Lemma live_insert_fresh (h : gmap addr (AnyAnimal Ty)) p c :
  h !! p = None -> live (<[p := c]> h) = (length (storage_ c) + live h)%nat.
Proof.
  intros Hp. unfold live. rewrite map_fold_insert_L; [done | | done].
  intros. lia.
Qed.

Lemma live_delete (h : gmap addr (AnyAnimal Ty)) p c :
  h !! p = Some c -> live h = (length (storage_ c) + live (delete p h))%nat.
Proof.
  intros Hp. unfold live. erewrite map_fold_delete_L; [done | | done].
  intros. lia.
Qed.

Lemma live_insert (h : gmap addr (AnyAnimal Ty)) p c c0 :
  h !! p = Some c0 ->
  (live (<[p := c]> h) + length (storage_ c0) = length (storage_ c) + live h)%nat.
Proof.
  intros Hp. rewrite <- (insert_delete_eq h p c).
  rewrite live_insert_fresh by apply lookup_delete_eq.
  rewrite (live_delete h p c0 Hp). lia.
Qed.

(** Objects constructed in buffers = objects destroyed there + objects
    still there: an operation changes both sides alike. *)
Lemma outcome_balance op s s' :
  outcome s op s' ->
  (constructions (trace s') + destructions (trace s) + live (heap s) =
   constructions (trace s) + destructions (trace s') + live (heap s'))%nat.
Proof.
  intros Hout. destruct Hout; simpl;
    rewrite ?constructions_app, ?destructions_app, ?constructions_destroyed,
      ?destructions_destroyed; simpl.
  - rewrite live_insert_fresh by done. simpl. lia.
  - pose proof (live_insert (<[this := holding T (fst (move_ctor T x))]> (heap s))
                  other empty_container (holding T x)) as Hl.
    rewrite lookup_insert_ne in Hl by congruence. specialize (Hl ltac:(done)).
    rewrite (live_insert_fresh (heap s) this) in Hl by done. simpl in Hl. lia.
  - rewrite live_insert_fresh by done. simpl. lia.
  - lia.
  - pose proof (live_insert (<[this := holding U (fst (move_ctor U y))]> (heap s))
                  other empty_container (holding U y)) as Hl.
    rewrite lookup_insert_ne in Hl by congruence. specialize (Hl ltac:(done)).
    pose proof (live_insert (heap s) this (holding U (fst (move_ctor U y))) c ltac:(done)) as Hl'.
    simpl in Hl, Hl'. lia.
  - pose proof (live_insert (heap s) this empty_container c ltac:(done)) as Hl.
    simpl in Hl. lia.
  - lia.
  - rewrite (live_delete (heap s) this c) by done. lia.
Qed.

(** C4.  Destroying a container that holds a value [x] runs the destructor
    of [x] once and nothing else; destroying an empty container, whatever
    else the store holds, runs no destructor.  In a store whose containers
    satisfy the invariant, move-assignment onto a container [this] that
    holds [x], from another container, first runs the destructor of [x],
    through [this]'s own [vptr] and on its own buffer, and only then
    installs the transferred value, if the source has one; assigning [this]
    to itself destroys and installs nothing, so [x] is still to be
    destroyed, once, later.  There, for every operation, the objects
    constructed in buffers are those destroyed there plus those still held:
    no held value is destroyed twice, and none is dropped without its
    destructor having run. *)
Theorem C4_destructor_runs_once s :
  (forall this T (x : obj T),
     heap s !! this = Some (holding T x) ->
     exec NDEBUG (OpDtor this) s =
       Ok {| heap := delete this (heap s);
             trace := trace s ++ [Destroyed (InBuffer this) (dyn T x)] |}) /\
  (forall q c, heap s !! q = Some c -> vptr c = None ->
     exec NDEBUG (OpDtor q) s = Ok {| heap := delete q (heap s); trace := trace s |}) /\
  (wf_state alignof_max_align_t s ->
   forall this T (x : obj T) other,
     heap s !! this = Some (holding T x) ->
     is_Some (heap s !! other) ->
     exists s' new,
       exec NDEBUG (OpMoveAssign this other) s = Ok s' /\
       trace s' = trace s ++ new /\
       ((this = other /\ new = [] /\ s' = s) \/
        (this <> other /\ heap s !! other = Some empty_container /\
         new = [Destroyed (InBuffer this) (dyn T x)] /\
         heap s' !! this = Some empty_container) \/
        (this <> other /\ exists U (y : obj U),
           heap s !! other = Some (holding U y) /\
           new = [Destroyed (InBuffer this) (dyn T x);
                  Constructed (InBuffer this) (dyn U (fst (move_ctor U y)));
                  Destroyed (InBuffer other) (dyn U (snd (move_ctor U y)))] /\
           heap s' !! this = Some (holding U (fst (move_ctor U y)))))) /\
  (wf_state alignof_max_align_t s ->
   forall op s', exec NDEBUG op s = Ok s' ->
     (constructions (trace s') + destructions (trace s) + live (heap s) =
      constructions (trace s) + destructions (trace s') + live (heap s'))%nat).
Proof.
  split; [|split; [|split]].
  - intros this T x Hthis. by apply dtor_holding.
  - intros q c Hq Hv. by eapply dtor_empty.
  - intros Hwf this T x other Hthis [o Hother].
    destruct (decide (this = other)) as [<-|Hne].
    { exists s, []. split; [apply move_assign_self|].
      split; [by rewrite app_nil_r|]. by left. }
    destruct (wf_cases o (Hwf _ _ Hother)) as [-> | (U & y & -> & _)].
    + eexists _, _. split; [by eapply move_assign_holding_empty|].
      split; [done|]. right; left. simpl. by lookups.
    + eexists _, _. split; [by eapply move_assign_holding_holding|].
      split; [done|]. right; right. split; [done|]. exists U, y. simpl. by lookups.
  - intros Hwf op s' Hexec. apply (outcome_balance op). by apply exec_outcome.
Qed.

(** Along a program the invariant is kept and the count stays balanced. *)
Lemma exec_all_balance sts ops s s' :
  wf_state alignof_max_align_t s ->
  Forall2 (fun st op => compile alignof_max_align_t st = inr op) sts ops ->
  exec_all NDEBUG ops s = Ok s' ->
  wf_state alignof_max_align_t s' /\
  (constructions (trace s') + destructions (trace s) + live (heap s) =
   constructions (trace s) + destructions (trace s') + live (heap s'))%nat.
Proof.
  intros Hwf Hc. revert s Hwf. induction Hc as [|st op sts ops Hst _ IH]; intros s Hwf.
  - simpl. intros [= <-]. split; [done | lia].
  - cbn [exec_all]. destruct (exec NDEBUG op s) as [s1| |] eqn:Hexec; try done.
    cbn [mbind result_bind]. intros Hrest.
    pose proof (exec_wf st op s s1 Hwf Hst Hexec) as Hwf1.
    destruct (IH s1 Hwf1 Hrest) as [Hwf' Hbal]. split; [done|].
    pose proof (outcome_balance _ _ _ (exec_outcome _ _ _ Hwf Hexec)). lia.
Qed.

(** A program that starts with no container and ends with none has run
    exactly one destructor for each object it constructed in a buffer. *)
Lemma program_destroys_what_it_constructs sts ops s' :
  Forall2 (fun st op => compile alignof_max_align_t st = inr op) sts ops ->
  exec_all NDEBUG ops initial = Ok s' ->
  heap s' = ∅ ->
  constructions (trace s') = destructions (trace s').
Proof.
  intros Hc Hexec Hempty.
  destruct (exec_all_balance sts ops initial s') as [_ Hbal]; [|done|done|].
  { intros p c. simpl. by rewrite lookup_empty. }
  rewrite Hempty in Hbal. simpl in Hbal. unfold live in Hbal.
  rewrite !map_fold_empty in Hbal. lia.
Qed.

(** *** Self-assignment *)

(** C6.  [a = std::move(a)] compiles to the move assignment with [this] and
    [other] the same address, which returns at once: the store (the held
    value and [vptr] of every container) and the trace (no destructor, no
    relocation, no output) are unchanged, and so is what a later call of
    [print_food_requirements] does. *)
Theorem C6_self_move_assign this s :
  compile alignof_max_align_t (Assign this rvalue false this) = inr (OpMoveAssign this this) /\
  exec NDEBUG (OpMoveAssign this this) s = Ok s /\
  exec_all NDEBUG [OpMoveAssign this this; OpPrint this] s =
    exec_all NDEBUG [OpPrint this] s.
Proof.
  split; [done|]. split; [apply move_assign_self|].
  cbn [exec_all exec]. by rewrite move_assign_self.
Qed.

(** *** What is rejected before the program runs *)

(** C7.  Constructing a container from a value of a type whose size
    exceeds [BUFFER_SIZE] = 128, or whose alignment exceeds [ALIGNMENT], is
    rejected by the compiler, with the message of each [static_assert] that
    fails; and no statement at all compiles to the construction from such a
    type, so the running program never meets it and has no other path for
    it. *)
Theorem C7_oversized_rejected T (o : obj T) this :
  (BUFFER_SIZE < sizeof T)%N \/ (ALIGNMENT alignof_max_align_t < alignof T)%N ->
  (exists msgs,
     compile alignof_max_align_t (Init this (OfType T o)) = inl msgs /\
     msgs <> [] /\
     ((BUFFER_SIZE < sizeof T)%N -> "Object too big" ∈ msgs) /\
     ((ALIGNMENT alignof_max_align_t < alignof T)%N -> "Alignment error" ∈ msgs)) /\
  (forall st (o' : obj T) this',
     compile alignof_max_align_t st <> inr (OpCtor T o' this')).
Proof.
  intros Hbig. split.
  - cbn [compile resolve]. unfold static_asserts.
    destruct (N.leb_spec (sizeof T) BUFFER_SIZE) as [Hs|Hs],
      (N.leb_spec (alignof T) (ALIGNMENT alignof_max_align_t)) as [Ha|Ha]; simpl.
    + lia.
    + eexists. split; [done|]. split; [done|]. split; [lia|]. intros _. by repeat constructor.
    + eexists. split; [done|]. split; [done|]. split; [|lia]. intros _. by repeat constructor.
    + eexists. split; [done|]. split; [done|]. split; intros _; by repeat constructor.
  - intros st o' this' Hst. apply compile_ctor_fits in Hst. lia.
Qed.

(** C9.  Initializing or assigning a container from an lvalue of type
    [AnyAnimal], or from a [const] one of either value category, selects
    the deleted copy constructor or copy assignment and is rejected by the
    compiler; the only initializations and assignments from a container
    that compile are the moves from a non-const rvalue. *)
Theorem C9_copy_rejected this other (cat : ValueCategory) (is_const : bool) :
  compile alignof_max_align_t (Init this (OfAnyAnimal lvalue is_const other)) =
    inl (deleted "AnyAnimal(const AnyAnimal&)") /\
  compile alignof_max_align_t (Init this (OfAnyAnimal cat true other)) =
    inl (deleted "AnyAnimal(const AnyAnimal&)") /\
  compile alignof_max_align_t (Assign this lvalue is_const other) =
    inl (deleted "operator=(const AnyAnimal&)") /\
  compile alignof_max_align_t (Assign this cat true other) =
    inl (deleted "operator=(const AnyAnimal&)") /\
  (forall op, compile alignof_max_align_t (Init this (OfAnyAnimal cat is_const other)) = inr op ->
     cat = rvalue /\ is_const = false /\ op = OpMoveCtor this other) /\
  (forall op, compile alignof_max_align_t (Assign this cat is_const other) = inr op ->
     cat = rvalue /\ is_const = false /\ op = OpMoveAssign this other).
Proof.
  repeat split; try (by destruct cat); try (by destruct is_const);
    destruct cat, is_const; simpl in *; congruence.
Qed.

(** *** Moves and exceptions *)

Section MovesAndExceptions.
Variable move_throws : forall T : Ty, obj T -> bool.

Lemma take_throwing_holding T (x : obj T) this other s :
  heap s !! other = Some (holding T x) ->
  take_throwing move_throws this other s =
    if move_throws T x then Thrown else Normal (take this other s).
Proof.
  intros Hother. unfold take_throwing, take, move_throwing.
  rewrite (load_Some _ _ _ Hother). cbn [mbind completion_bind result_bind vptr holding].
  erewrite object_at_head by (try apply Hother; done).
  destruct (move_throws T x); [done|].
  by destruct (move (vtable_for T) other this s).
Qed.

Lemma take_throwing_empty this other s o :
  heap s !! other = Some o -> vptr o = None ->
  take_throwing move_throws this other s = Normal (take this other s).
Proof.
  intros Hother Hv. unfold take_throwing, take.
  rewrite (load_Some _ _ _ Hother). cbn [mbind completion_bind result_bind].
  by rewrite Hv.
Qed.

(** The move constructor into raw memory, from a container that holds
    [x]. *)
Lemma move_ctor_noexcept_holding T (x : obj T) this other s :
  heap s !! this = None -> heap s !! other = Some (holding T x) ->
  AnyAnimal_move_ctor_noexcept move_throws this other s =
    if move_throws T x then Terminated else Normal (AnyAnimal_move_ctor this other s).
Proof.
  intros Hthis Hother. assert (this <> other) as Hne by congruence.
  unfold AnyAnimal_move_ctor_noexcept, AnyAnimal_move_ctor, allocate. rewrite Hthis.
  cbn [mbind completion_bind result_bind].
  rewrite (take_throwing_holding T x) by (simpl; by lookups).
  by destruct (move_throws T x).
Qed.

Lemma move_ctor_noexcept_empty this other s o :
  heap s !! this = None -> heap s !! other = Some o -> vptr o = None ->
  AnyAnimal_move_ctor_noexcept move_throws this other s =
    Normal (AnyAnimal_move_ctor this other s).
Proof.
  intros Hthis Hother Hv. assert (this <> other) as Hne by congruence.
  unfold AnyAnimal_move_ctor_noexcept, AnyAnimal_move_ctor, allocate. rewrite Hthis.
  cbn [mbind completion_bind result_bind].
  rewrite (take_throwing_empty this other _ o) by (simpl; lookups; done).
  by destruct (take _ _ _).
Qed.

Lemma move_assign_noexcept_self this s :
  AnyAnimal_move_assign_noexcept move_throws this this s = Normal (Ok s).
Proof. unfold AnyAnimal_move_assign_noexcept. by rewrite decide_True. Qed.

(** The move assignment onto a well-formed container, from another one
    that holds [x]: the value of [this] is destroyed before the move
    constructor is called. *)
Lemma move_assign_noexcept_holding T (x : obj T) this other s c :
  this <> other ->
  heap s !! this = Some c -> wf alignof_max_align_t c ->
  heap s !! other = Some (holding T x) ->
  AnyAnimal_move_assign_noexcept move_throws this other s =
    if move_throws T x then Terminated else Normal (AnyAnimal_move_assign this other s).
Proof.
  intros Hne Hthis Hwf Hother.
  unfold AnyAnimal_move_assign_noexcept, AnyAnimal_move_assign.
  rewrite !decide_False by done. rewrite (load_Some _ _ _ Hthis).
  destruct (wf_cases c Hwf) as [-> | (U & y & -> & _)];
    cbn [mbind completion_bind result_bind vptr empty_container holding destroy vtable_for].
  - rewrite (take_throwing_holding T x) by done. by destruct (move_throws T x).
  - erewrite destroy_at_head by (try apply Hthis; done).
    cbn [mbind completion_bind result_bind].
    rewrite (take_throwing_holding T x) by (simpl; by lookups).
    by destruct (move_throws T x).
Qed.

Lemma move_assign_noexcept_empty this other s c o :
  this <> other ->
  heap s !! this = Some c -> wf alignof_max_align_t c ->
  heap s !! other = Some o -> vptr o = None ->
  AnyAnimal_move_assign_noexcept move_throws this other s =
    Normal (AnyAnimal_move_assign this other s).
Proof.
  intros Hne Hthis Hwf Hother Hv.
  unfold AnyAnimal_move_assign_noexcept, AnyAnimal_move_assign.
  rewrite !decide_False by done. rewrite (load_Some _ _ _ Hthis).
  destruct (wf_cases c Hwf) as [-> | (U & y & -> & _)];
    cbn [mbind completion_bind result_bind vptr empty_container holding destroy vtable_for].
  - rewrite (take_throwing_empty this other _ o) by done. by destruct (take _ _ _).
  - erewrite destroy_at_head by (try apply Hthis; done).
    cbn [mbind completion_bind result_bind].
    rewrite (take_throwing_empty this other _ o) by (simpl; lookups; done).
    by destruct (take _ _ _).
Qed.

(** Without exceptions: the two moves return on every well-formed store. *)
Lemma moves_return this other s :
  wf_state alignof_max_align_t s ->
  is_Some (heap s !! other) ->
  (heap s !! this = None ->
     exists s', exec NDEBUG (OpMoveCtor this other) s = Ok s' /\
       wf_state alignof_max_align_t s') /\
  (is_Some (heap s !! this) ->
     exists s', exec NDEBUG (OpMoveAssign this other) s = Ok s' /\
       wf_state alignof_max_align_t s').
Proof.
  intros Hwf [o Hother].
  assert (forall op s', (exists st, compile alignof_max_align_t st = inr op) ->
            exec NDEBUG op s = Ok s' ->
            exists s', exec NDEBUG op s = Ok s' /\ wf_state alignof_max_align_t s') as Hok.
  { intros op s' [st Hst] Hexec. exists s'. split; [done|]. by eapply exec_wf. }
  split.
  - intros Hraw.
    destruct (wf_cases o (Hwf _ _ Hother)) as [-> | (T & x & -> & _)].
    + eapply Hok; [by exists (Init this (OfAnyAnimal rvalue false other))|].
      by eapply move_ctor_empty.
    + eapply Hok; [by exists (Init this (OfAnyAnimal rvalue false other))|].
      by eapply move_ctor_holding.
  - intros [c Hthis].
    destruct (decide (this = other)) as [->|Hne].
    { eapply Hok; [by exists (Assign other rvalue false other)|]. apply move_assign_self. }
    destruct (wf_cases c (Hwf _ _ Hthis)) as [-> | (T & x & -> & _)];
      destruct (wf_cases o (Hwf _ _ Hother)) as [-> | (U & y & -> & _)];
      (eapply Hok; [by exists (Assign this rvalue false other)|]).
    + by eapply move_assign_empty_empty.
    + by eapply move_assign_empty_holding.
    + by eapply move_assign_holding_empty.
    + by eapply move_assign_holding_holding.
Qed.

(** C10 (amended).  In a store whose containers satisfy the invariant, let
    the move constructor (into raw memory) or the move assignment (onto a
    live container, which may be the source itself) read the container
    [other], empty or not.  If the move constructor of the type [other]
    holds does not throw on the held value, the operation returns: it
    neither throws, nor fails an assertion, nor runs into undefined
    behaviour, it does what the exception-free [exec] does, and the store it
    leaves satisfies the invariant again; an empty source and
    self-assignment call no move constructor and always return.  If that
    move constructor throws, [noexcept] turns the exception into
    [std::terminate]: the program ends inside the move. *)
Theorem C10_moves_total this other s :
  wf_state alignof_max_align_t s ->
  ((forall T (x : obj T), heap s !! other = Some (holding T x) -> this <> other ->
      move_throws T x = false) ->
   is_Some (heap s !! other) ->
   (heap s !! this = None ->
      exists s',
        AnyAnimal_move_ctor_noexcept move_throws this other s = Normal (Ok s') /\
        exec NDEBUG (OpMoveCtor this other) s = Ok s' /\
        wf_state alignof_max_align_t s') /\
   (is_Some (heap s !! this) ->
      exists s',
        AnyAnimal_move_assign_noexcept move_throws this other s = Normal (Ok s') /\
        exec NDEBUG (OpMoveAssign this other) s = Ok s' /\
        wf_state alignof_max_align_t s')) /\
  (forall T (x : obj T), heap s !! other = Some (holding T x) -> this <> other ->
     move_throws T x = true ->
     (heap s !! this = None ->
        AnyAnimal_move_ctor_noexcept move_throws this other s = Terminated) /\
     (is_Some (heap s !! this) ->
        AnyAnimal_move_assign_noexcept move_throws this other s = Terminated)).
Proof.
  intros Hwf. split.
  - intros Hquiet [o Hother].
    destruct (moves_return this other s Hwf) as [Hctor Hassign]; [by exists o|].
    split.
    + intros Hraw. destruct (Hctor Hraw) as (s' & Hexec & Hwf').
      exists s'. split; [|done]. cbn [exec] in Hexec. rewrite <- Hexec.
      assert (this <> other) as Hne by congruence.
      destruct (wf_cases o (Hwf _ _ Hother)) as [-> | (T & x & -> & _)].
      * by eapply move_ctor_noexcept_empty.
      * rewrite (move_ctor_noexcept_holding T x) by done.
        by rewrite (Hquiet T x Hother Hne).
    + intros [c Hthis]. destruct (Hassign ltac:(by exists c)) as (s' & Hexec & Hwf').
      exists s'. split; [|done]. cbn [exec] in Hexec. rewrite <- Hexec.
      destruct (decide (this = other)) as [->|Hne].
      { rewrite move_assign_noexcept_self. by rewrite move_assign_self. }
      destruct (wf_cases o (Hwf _ _ Hother)) as [-> | (T & x & -> & _)].
      * eapply move_assign_noexcept_empty; [done | done | by eapply Hwf | done | done].
      * rewrite (move_assign_noexcept_holding T x this other s c) by (try done; by eapply Hwf).
        by rewrite (Hquiet T x Hother Hne).
  - intros T x Hother Hne Hthrows. split.
    + intros Hraw. rewrite (move_ctor_noexcept_holding T x) by done. by rewrite Hthrows.
    + intros [c Hthis].
      rewrite (move_assign_noexcept_holding T x this other s c) by (try done; by eapply Hwf).
      by rewrite Hthrows.
Qed.

End MovesAndExceptions.

End Properties.

(** *** Calling through an empty container *)

Section Call.
Context {Ty : Type} `{Concrete Ty}.
Variable alignof_max_align_t : N.

(** C5.  On an empty container, [print_food_requirements] stops in the
    failed [assert] when [NDEBUG] is not defined, and has undefined
    behaviour when it is.  On a container that satisfies the invariant and
    is not empty, whatever the build, the assertion does not fire and the
    call is forwarded to the method of the held value: its output is
    appended to [std::cout] and the store is unchanged. *)
Theorem C5_call_requires_value this (s : State Ty) (c : AnyAnimal Ty) :
  heap s !! this = Some c ->
  wf alignof_max_align_t c ->
  (vptr c = None ->
     exec false (OpPrint this) s = AssertionFailed "Empty AnyAnimal" /\
     exec true (OpPrint this) s = Undefined) /\
  (vptr c <> None ->
     exists T (x : obj T), c = holding T x /\
       forall NDEBUG,
         exec NDEBUG (OpPrint this) s =
           Ok {| heap := heap s;
                 trace := trace s ++ [Cout (method_print_food_requirements T x)] |}).
Proof.
  intros Hthis Hwf. split.
  - intros Hv. cbn [exec]. by rewrite !(print_empty _ this s c).
  - intros Hv. destruct (wf_cases _ c Hwf) as [-> | (T & x & -> & _)]; [done|].
    exists T, x. split; [done|]. intros NDEBUG. cbn [exec].
    by rewrite (print_holding NDEBUG T x).
Qed.

End Call.

(** *** Relocating the elements of a vector *)

Section Relocation.
Context {Ty : Type} `{Concrete Ty}.
Variable alignof_max_align_t : N.
Variable NDEBUG : bool.

Lemma offset_to_nat (p : addr) (i : nat) :
  Pos.to_nat (offset p i) = (Pos.to_nat p + i)%nat.
Proof.
  unfold offset. induction i as [|i IH]; simpl; [lia|].
  rewrite Pos2Nat.inj_succ, IH. lia.
Qed.

Lemma offset_inj (p : addr) (i j : nat) : offset p i = offset p j -> i = j.
Proof.
  intros Heq. apply (f_equal Pos.to_nat) in Heq. rewrite !offset_to_nat in Heq. lia.
Qed.

(** One move construction into raw memory: it returns, keeps the
    invariant, leaves both containers in the store and touches no other. *)
Lemma move_ctor_frame this other (s : State Ty) :
  wf_state alignof_max_align_t s ->
  heap s !! this = None -> is_Some (heap s !! other) ->
  exists s',
    exec NDEBUG (OpMoveCtor this other) s = Ok s' /\
    wf_state alignof_max_align_t s' /\
    is_Some (heap s' !! this) /\ is_Some (heap s' !! other) /\
    (forall p, p <> this -> p <> other -> heap s' !! p = heap s !! p).
Proof.
  intros Hwf Hraw [o Hother]. assert (this <> other) as Hne by congruence.
  destruct (wf_cases alignof_max_align_t o (Hwf _ _ Hother)) as [-> | (T & x & -> & Hfit)].
  - eexists. split; [by eapply move_ctor_empty|]. simpl. split; [|split; [|split]].
    + destruct s as [h t]. apply wf_state_insert with (t := t); [done|apply wf_empty_container].
    + lookups. by eexists.
    + lookups. by eexists.
    + intros p Hp _. by lookups.
  - eexists. split; [by eapply move_ctor_holding|]. simpl. split; [|split; [|split]].
    + destruct s as [h t]. simpl in *.
      apply wf_state_insert with (t := t); [|apply wf_empty_container].
      apply wf_state_insert with (t := t); [done|].
      by apply wf_holding; apply Hfit.
    + lookups. by eexists.
    + lookups. by eexists.
    + intros p Hp Hp'. by lookups.
Qed.

(** The relocation a growing vector performs cannot fail: when the old
    elements are live and the new block is raw memory, every element is
    move-constructed into its new place. *)
Lemma relocate_total (old new : addr) (n : nat) (s : State Ty) :
  wf_state alignof_max_align_t s ->
  (forall i, (i < n)%nat -> is_Some (heap s !! offset old i)) ->
  (forall i, (i < n)%nat -> heap s !! offset new i = None) ->
  exists s',
    exec_all NDEBUG (relocate old new n) s = Ok s' /\
    wf_state alignof_max_align_t s' /\
    (forall i, (i < n)%nat ->
       is_Some (heap s' !! offset new i) /\ is_Some (heap s' !! offset old i)).
Proof.
  unfold relocate. intros Hwf Hold Hnew.
  assert (forall l : list nat, NoDup l -> (forall i, i ∈ l -> (i < n)%nat) ->
            forall s0 : State Ty,
              wf_state alignof_max_align_t s0 ->
              (forall i, (i < n)%nat -> is_Some (heap s0 !! offset old i)) ->
              (forall i, i ∈ l -> heap s0 !! offset new i = None) ->
              exists s',
                exec_all NDEBUG ((fun i => OpMoveCtor (offset new i) (offset old i)) <$> l) s0 = Ok s' /\
                wf_state alignof_max_align_t s' /\
                (forall i, (i < n)%nat -> is_Some (heap s' !! offset old i)) /\
                (forall i, i ∈ l -> is_Some (heap s' !! offset new i)) /\
                (forall p, is_Some (heap s0 !! p) -> is_Some (heap s' !! p))) as Hgen.
  { induction l as [|i l IH]; intros Hnd Hlt s0 Hwf0 Hold0 Hnew0.
    - exists s0. simpl. split; [done|]. split; [done|]. split; [done|].
      split; [intros i Hi; by apply elem_of_nil in Hi | done].
    - apply NoDup_cons in Hnd as [Hi Hnd].
      destruct (move_ctor_frame (offset new i) (offset old i) s0 Hwf0)
        as (s1 & Hexec & Hwf1 & Hn1 & Ho1 & Hframe).
      { apply Hnew0. by left. }
      { apply Hold0, Hlt. by left. }
      assert (forall p, is_Some (heap s0 !! p) -> is_Some (heap s1 !! p)) as Hmono.
      { intros p Hp. destruct (decide (p = offset new i)) as [->|Hpn]; [done|].
        destruct (decide (p = offset old i)) as [->|Hpo]; [done|].
        by rewrite Hframe. }
      destruct (IH Hnd (fun j Hj => Hlt j (list_elem_of_further _ _ _ Hj)) s1 Hwf1)
        as (s' & Hrest & Hwf' & Hold' & Hnew' & Hmono').
      + intros j Hj. by apply Hmono, Hold0.
      + intros j Hj. rewrite Hframe.
        * apply Hnew0. by right.
        * intros Heq. apply offset_inj in Heq. by subst.
        * intros Heq. pose proof (Hold0 i (Hlt i ltac:(by left))) as [c Hc].
          rewrite <- Heq in Hc. rewrite Hnew0 in Hc by (by right). done.
      + exists s'. split; [|split; [done|split; [done|split]]].
        * cbn [fmap list_fmap exec_all]. rewrite Hexec. exact Hrest.
        * intros j Hj. apply elem_of_cons in Hj as [->|Hj]; [by apply Hmono'|by apply Hnew'].
        * intros p Hp. by apply Hmono', Hmono. }
  destruct (Hgen (seq 0 n) (NoDup_seq 0 n)) with (s0 := s)
    as (s' & Hexec & Hwf' & Hold' & Hnew' & _).
  - intros i Hi. apply elem_of_seq in Hi. lia.
  - done.
  - done.
  - intros i Hi. apply Hnew. apply elem_of_seq in Hi. lia.
  - exists s'. split; [done|]. split; [done|].
    intros i Hi. split; [|by apply Hold'].
    apply Hnew'. apply elem_of_seq. lia.
Qed.

End Relocation.

(** *** The loop of [main] *)

Section Loop.
Context {Ty : Type} `{Concrete Ty}.
Variable NDEBUG : bool.

(** The loop calls the containers in the order of the sequence, once per
    position, also when two positions hold equal values or are the same
    container. *)
Lemma for_each_print_in_order (ps : list addr) (vals : list Dyn) (s : State Ty) :
  Forall2 (fun p d => heap s !! p = Some (holding (projT1 d) (projT2 d))) ps vals ->
  for_each_print NDEBUG ps s =
    Ok {| heap := heap s;
          trace := trace s ++
            flat_map (fun d => [Cout (method_print_food_requirements (projT1 d) (projT2 d));
                                Cout endl]) vals |}.
Proof.
  revert vals s.
  induction ps as [|p ps IH]; intros vals s Hall;
    inversion Hall as [|? d ? vals' Hp Hrest]; subst.
  - simpl. rewrite app_nil_r. by destruct s.
  - cbn [for_each_print]. rewrite (print_holding NDEBUG _ _ p s Hp).
    cbn [mbind result_bind]. rewrite (IH vals') by exact Hrest. simpl.
    by rewrite <- !app_assoc.
Qed.

End Loop.

Ltac run_emplace :=
  match goal with
  | |- context [@emplace_back_temporary ?Ty ?H ?nd ?g ?T ?x ?v ?b ?s] =>
      let t := constr:(@emplace_back_temporary Ty H nd g T x v b s) in
      let r := eval vm_compute in t in
      change t with r; cbn [mbind result_bind]
  end.

(** C8.  Whatever the size of an [Animal], the build and the growth policy
    of the vector, [main] returns 0 after writing to [std::cout] exactly
    three lines, each ended by a line feed (character 10): in this order,
    the line of the Lion (meat), the line of the Zebra (hay, grass) and the
    line of the Elephant (hay, fruit, vegetables), each beginning with the
    name of its class and each written once; every container has been
    destroyed by then. *)
Theorem C8_main_prints_roster (size_of_animal align_of_animal : N) (NDEBUG : bool)
    (growth : nat -> nat) :
  exists s,
    main size_of_animal align_of_animal NDEBUG growth = Ok (0%Z, s) /\
    cout (trace s) =
      ("Lion needs: meat (11kg/day)" ++ String "010"%char
       ("Zebra needs: hay, grass (15kg/day)" ++ String "010"%char
        ("Elephant needs: hay, fruit, vegetables (300kg/day)" ++ String "010"%char
         EmptyString)))%string /\
    heap s = ∅.
Proof.
  unfold main. run_emplace.
  destruct (growth 0%nat) as [|[|[|g0]]]; run_emplace;
    destruct (growth 1%nat) as [|[|[|g1]]]; run_emplace;
    eexists; (split; [vm_compute; reflexivity | split; reflexivity]).
Qed.

(** * The properties at concrete inputs *)

Section Examples.
#[local] Existing Instance tally.
#[local] Existing Instance zoo_x86_64.
#[local] Hint Mode Concrete ! : typeclass_instances.

Lemma wf_state_initial {Ty : Type} `{Concrete Ty} (a : N) : wf_state a (@initial Ty _).
Proof. intros p c. simpl. by rewrite lookup_empty. Qed.

(** The store of the examples: one container at address 1, built from a
    [Lion]. *)
Lemma wf_state_lion :
  wf_state max_align_x86_64 (run [OpCtor Lion Lion_ctor 1%positive]).
Proof.
  eapply (@exec_wf AnimalClass zoo_x86_64 max_align_x86_64 false
            (Init 1%positive (OfType Lion (Lion_ctor : @obj AnimalClass zoo_x86_64 Lion)))).
  - apply (wf_state_initial max_align_x86_64).
  - reflexivity.
  - reflexivity.
Qed.

(** The classes of the program are copied by their move constructors, so
    a relocated animal prints what the original printed. *)
Lemma zoo_move_preserves_print (size_of_animal align_of_animal : N) (T : AnimalClass)
    (x : @obj _ (zoo size_of_animal align_of_animal) T) :
  @method_print_food_requirements _ (zoo size_of_animal align_of_animal) T
    (fst (@move_ctor _ (zoo size_of_animal align_of_animal) T x)) =
  @method_print_food_requirements _ (zoo size_of_animal align_of_animal) T x.
Proof. reflexivity. Qed.

(** C1, as stated, fails for [Tally]: it passes both [static_assert]s and
    the construction compiles and succeeds, but the container built from
    [Tally{0}] prints one star where [Tally{0}] itself prints none. *)
Lemma C1_counterexample :
  (@sizeof _ tally Tally <= BUFFER_SIZE)%N /\
  (@alignof _ tally Tally <= ALIGNMENT max_align_x86_64)%N /\
  @compile _ tally max_align_x86_64 (Init 1%positive (OfType Tally 0%nat)) =
    inr (OpCtor Tally 0%nat 1%positive) /\
  exists s1 s2,
    @exec _ tally false (OpCtor Tally 0%nat 1%positive) initial = Ok s1 /\
    @exec _ tally false (OpPrint 1%positive) s1 = Ok s2 /\
    trace s2 = trace s1 ++ [Cout "*"] /\
    trace (@direct_call _ tally Tally 0%nat s1) = trace s1 ++ [Cout ""] /\
    s2 <> @direct_call _ tally Tally 0%nat s1.
Proof.
  split; [by vm_compute|]. split; [by vm_compute|]. split; [reflexivity|].
  eexists _, _. split; [reflexivity|]. split; [reflexivity|].
  split; [reflexivity|]. split; [reflexivity|].
  intros Heq. apply (f_equal trace) in Heq. vm_compute in Heq. congruence.
Qed.

Lemma C1_witness :
  heap (@initial AnimalClass _) !! 1%positive = None /\
  exists s1,
    compile max_align_x86_64 (Init 1%positive (OfType Lion Lion_ctor)) =
      inr (OpCtor Lion Lion_ctor 1%positive) /\
    exec false (OpCtor Lion Lion_ctor 1%positive) initial = Ok s1 /\
    exec false (OpPrint 1%positive) s1 = Ok (direct_call Lion Lion_ctor s1).
Proof.
  split; [reflexivity|].
  apply (@C1_construct_then_print AnimalClass zoo_x86_64 max_align_x86_64 false
           Lion (Lion_ctor : @obj AnimalClass zoo_x86_64 Lion) 1%positive initial).
  - by vm_compute.
  - by vm_compute.
  - reflexivity.
  - reflexivity.
Defined.



(** C3, as stated, fails on its last clause: after a Lion is put in the
    container at 1 and moved out to 2, the container move-constructed at 3
    from the now empty 1 is empty, although it was never the source of a
    move and did not exist before. *)
Lemma C3_counterexample :
  Forall2 (fun st op => compile max_align_x86_64 st = inr op)
    [Init 1%positive (OfType Lion Lion_ctor);
     Init 2%positive (OfAnyAnimal rvalue false 1%positive);
     Init 3%positive (OfAnyAnimal rvalue false 1%positive)]
    [OpCtor Lion Lion_ctor 1%positive; OpMoveCtor 2%positive 1%positive;
     OpMoveCtor 3%positive 1%positive] /\
  exists s,
    exec_all false [OpCtor Lion Lion_ctor 1%positive; OpMoveCtor 2%positive 1%positive;
                    OpMoveCtor 3%positive 1%positive] initial = Ok s /\
    heap s !! 3%positive = Some empty_container /\
    heap (run [OpCtor Lion Lion_ctor 1%positive; OpMoveCtor 2%positive 1%positive])
      !! 3%positive = None /\
    Forall (fun op => source_of op <> Some 3%positive)
      [OpCtor Lion Lion_ctor 1%positive; OpMoveCtor 2%positive 1%positive;
       OpMoveCtor 3%positive 1%positive].
Proof.
  split; [by repeat constructor|].
  eexists. split; [reflexivity|]. split; [reflexivity|]. split; [reflexivity|].
  by repeat constructor.
Qed.

Lemma C3_witness :
  wf_state max_align_x86_64 (@initial AnimalClass _) /\
  compile max_align_x86_64 (Init 1%positive (OfType Lion Lion_ctor)) =
    inr (OpCtor Lion Lion_ctor 1%positive) /\
  exec false (OpCtor Lion Lion_ctor 1%positive) initial =
    Ok (run [OpCtor Lion Lion_ctor 1%positive]) /\
  wf_state max_align_x86_64 (run [OpCtor Lion Lion_ctor 1%positive]) /\
  heap (run [OpCtor Lion Lion_ctor 1%positive]) !! 1%positive =
    Some (holding Lion (fst (move_ctor Lion Lion_ctor))).
Proof.
  split; [apply wf_state_initial|]. split; [reflexivity|]. split; [reflexivity|].
  destruct (@C3_invariant_preserved AnimalClass zoo_x86_64 max_align_x86_64 false
              (Init 1%positive (OfType Lion (Lion_ctor : @obj AnimalClass zoo_x86_64 Lion))) (OpCtor Lion (Lion_ctor : @obj AnimalClass zoo_x86_64 Lion) 1%positive)
              initial (run [OpCtor Lion (Lion_ctor : @obj AnimalClass zoo_x86_64 Lion) 1%positive]))
    as (Hwf & _ & Hctor & _).
  - apply wf_state_initial.
  - reflexivity.
  - reflexivity.
  - split; [exact Hwf|]. by apply Hctor.
Defined.

(** A Lion is put in the container at 1 and moved out to the container
    at 2, which is then destroyed: the moved-from container at 1 is the
    only one left. *)
Lemma wf_state_moved_from :
  wf_state max_align_x86_64
    (run [OpCtor Lion Lion_ctor 1%positive; OpMoveCtor 2%positive 1%positive;
          OpDtor 2%positive]).
Proof.
  destruct (@exec_all_balance AnimalClass zoo_x86_64 max_align_x86_64 false
              [Init 1%positive (OfType Lion (Lion_ctor : @obj AnimalClass zoo_x86_64 Lion));
               Init 2%positive (OfAnyAnimal rvalue false 1%positive);
               EndOfLifetime 2%positive]
              [OpCtor Lion (Lion_ctor : @obj AnimalClass zoo_x86_64 Lion) 1%positive;
               OpMoveCtor 2%positive 1%positive; OpDtor 2%positive]
              initial
              (run [OpCtor Lion (Lion_ctor : @obj AnimalClass zoo_x86_64 Lion) 1%positive;
                    OpMoveCtor 2%positive 1%positive; OpDtor 2%positive])) as [Hwf _].
  - apply (wf_state_initial max_align_x86_64).
  - by repeat constructor.
  - reflexivity.
  - exact Hwf.
Qed.

Lemma C4_witness :
  (heap (run [OpCtor Lion Lion_ctor 1%positive]) !! 1%positive = Some (holding Lion Lion_ctor) /\
   exec false (OpDtor 1%positive) (run [OpCtor Lion Lion_ctor 1%positive]) =
     Ok {| heap := delete 1%positive (heap (run [OpCtor Lion Lion_ctor 1%positive]));
           trace := trace (run [OpCtor Lion Lion_ctor 1%positive]) ++
                      [Destroyed (InBuffer 1%positive) (dyn Lion Lion_ctor)] |}) /\
  (heap (run [OpCtor Lion Lion_ctor 1%positive; OpMoveCtor 2%positive 1%positive;
              OpDtor 2%positive]) !! 1%positive = Some empty_container /\
   exec false (OpDtor 1%positive)
     (run [OpCtor Lion Lion_ctor 1%positive; OpMoveCtor 2%positive 1%positive;
           OpDtor 2%positive]) =
     Ok {| heap := ∅;
           trace := [Constructed (InBuffer 1%positive) (dyn Lion Lion_ctor);
                     Destroyed Automatic (dyn Lion Lion_ctor);
                     Constructed (InBuffer 2%positive) (dyn Lion Lion_ctor);
                     Destroyed (InBuffer 1%positive) (dyn Lion Lion_ctor);
                     Destroyed (InBuffer 2%positive) (dyn Lion Lion_ctor)] |}) /\
  (wf_state max_align_x86_64
     (run [OpCtor Lion Lion_ctor 1%positive; OpMoveCtor 2%positive 1%positive;
           OpDtor 2%positive]) /\
   forall op s',
     exec false op
       (run [OpCtor Lion Lion_ctor 1%positive; OpMoveCtor 2%positive 1%positive;
             OpDtor 2%positive]) = Ok s' ->
     (constructions (trace s') + 2 = 2 + destructions (trace s') + live (heap s'))%nat).
Proof.
  destruct (@C4_destructor_runs_once AnimalClass zoo_x86_64 max_align_x86_64 false
              (run [OpCtor Lion (Lion_ctor : @obj AnimalClass zoo_x86_64 Lion) 1%positive]))
    as (Hholding & _).
  destruct (@C4_destructor_runs_once AnimalClass zoo_x86_64 max_align_x86_64 false
              (run [OpCtor Lion (Lion_ctor : @obj AnimalClass zoo_x86_64 Lion) 1%positive;
                    OpMoveCtor 2%positive 1%positive; OpDtor 2%positive]))
    as (_ & Hempty & _ & Hbalance).
  split; [|split].
  - split; [reflexivity|].
    apply (Hholding 1%positive Lion (Lion_ctor : @obj AnimalClass zoo_x86_64 Lion)). reflexivity.
  - split; [reflexivity|].
    rewrite (Hempty 1%positive empty_container); reflexivity.
  - split; [apply wf_state_moved_from|].
    intros op s' Hexec. pose proof (Hbalance wf_state_moved_from op s' Hexec) as Hb.
    change (constructions (trace s') + 2 + 0 =
            2 + destructions (trace s') + live (heap s'))%nat in Hb.
    lia.
Defined.

Lemma C5_witness :
  heap (run [OpCtor Lion Lion_ctor 1%positive; OpMoveCtor 2%positive 1%positive])
    !! 1%positive = Some empty_container /\
  wf max_align_x86_64 (@empty_container AnimalClass _) /\
  exec false (OpPrint 1%positive)
    (run [OpCtor Lion Lion_ctor 1%positive; OpMoveCtor 2%positive 1%positive]) =
    AssertionFailed "Empty AnyAnimal".
Proof.
  split; [reflexivity|]. split; [reflexivity|].
  apply (@C5_call_requires_value AnimalClass zoo_x86_64 max_align_x86_64 1%positive
           (run [OpCtor Lion (Lion_ctor : @obj AnimalClass zoo_x86_64 Lion) 1%positive; OpMoveCtor 2%positive 1%positive])
           empty_container).
  - reflexivity.
  - reflexivity.
  - reflexivity.
Defined.

Lemma C7_witness :
  (BUFFER_SIZE < @sizeof _ zoo_large Lion)%N /\
  exists msgs,
    @compile _ zoo_large max_align_x86_64
      (Init 1%positive (@OfType _ zoo_large Lion Lion_ctor)) = inl msgs /\
    msgs <> [].
Proof.
  split; [by vm_compute|].
  destruct (@C7_oversized_rejected _ zoo_large max_align_x86_64 Lion
              (Lion_ctor : @obj AnimalClass zoo_large Lion) 1%positive)
    as [(msgs & Hc & Hne & _) _].
  - left. by vm_compute.
  - exists msgs. split; [exact Hc | exact Hne].
Defined.

(** C10, as stated, fails for [Fuse].  A container is built from
    [Fuse{0}] without an exception and holds a value with one star; moving
    from it, by the move constructor into raw memory or by the move
    assignment onto another container, calls the move constructor of
    [Fuse], which throws, inside a [noexcept] function: the program ends in
    [std::terminate] instead of completing the move. *)
Lemma C10_counterexample :
  (@sizeof _ tally Tally <= BUFFER_SIZE)%N /\
  (@alignof _ tally Tally <= ALIGNMENT max_align_x86_64)%N /\
  @AnyAnimal_ctor_throwing _ tally Fuse_move_throws Tally 0%nat 1%positive initial =
    Normal (Ok (@run _ tally [OpCtor Tally 0%nat 1%positive])) /\
  heap (@run _ tally [OpCtor Tally 0%nat 1%positive]) !! 1%positive =
    Some (@holding _ tally Tally 1%nat) /\
  heap (@run _ tally [OpCtor Tally 0%nat 1%positive]) !! 2%positive = None /\
  @compile _ tally max_align_x86_64 (Init 2%positive (OfAnyAnimal rvalue false 1%positive)) =
    inr (OpMoveCtor 2%positive 1%positive) /\
  @AnyAnimal_move_ctor_noexcept _ tally Fuse_move_throws 2%positive 1%positive
    (run [OpCtor Tally 0%nat 1%positive]) = Terminated /\
  heap (@run _ tally [OpCtor Tally 0%nat 1%positive; OpCtor Tally 0%nat 2%positive])
    !! 2%positive = Some (@holding _ tally Tally 1%nat) /\
  @compile _ tally max_align_x86_64 (Assign 2%positive rvalue false 1%positive) =
    inr (OpMoveAssign 2%positive 1%positive) /\
  @AnyAnimal_move_assign_noexcept _ tally Fuse_move_throws 2%positive 1%positive
    (run [OpCtor Tally 0%nat 1%positive; OpCtor Tally 0%nat 2%positive]) = Terminated.
Proof.
  split; [by vm_compute|]. split; [by vm_compute|].
  repeat split; reflexivity.
Qed.

Lemma C10_witness :
  wf_state max_align_x86_64 (run [OpCtor Lion Lion_ctor 1%positive]) /\
  is_Some (heap (run [OpCtor Lion Lion_ctor 1%positive]) !! 1%positive) /\
  heap (run [OpCtor Lion Lion_ctor 1%positive]) !! 2%positive = None /\
  (exists s',
     AnyAnimal_move_ctor_noexcept never_throws 2%positive 1%positive
       (run [OpCtor Lion Lion_ctor 1%positive]) = Normal (Ok s') /\
     exec false (OpMoveCtor 2%positive 1%positive)
       (run [OpCtor Lion Lion_ctor 1%positive]) = Ok s' /\
     wf_state max_align_x86_64 s') /\
  (exists s',
     AnyAnimal_move_assign_noexcept never_throws 1%positive 1%positive
       (run [OpCtor Lion Lion_ctor 1%positive]) = Normal (Ok s') /\
     exec false (OpMoveAssign 1%positive 1%positive)
       (run [OpCtor Lion Lion_ctor 1%positive]) = Ok s' /\
     wf_state max_align_x86_64 s').
Proof.
  split; [apply wf_state_lion|]. split; [by eexists|]. split; [reflexivity|].
  destruct (@C10_moves_total AnimalClass zoo_x86_64 max_align_x86_64 false never_throws
              2%positive 1%positive
              (run [OpCtor Lion (Lion_ctor : @obj AnimalClass zoo_x86_64 Lion) 1%positive])
              wf_state_lion)
    as [Hquiet _].
  destruct Hquiet as [Hctor _]; [reflexivity | by eexists |].
  destruct (@C10_moves_total AnimalClass zoo_x86_64 max_align_x86_64 false never_throws
              1%positive 1%positive
              (run [OpCtor Lion (Lion_ctor : @obj AnimalClass zoo_x86_64 Lion) 1%positive])
              wf_state_lion)
    as [Hself _].
  destruct Hself as [_ Hassign]; [reflexivity | by eexists |].
  split; [by apply Hctor | apply Hassign; by eexists].
Defined.

End Examples.

(** * Further properties of the container *)

Section Safety.
Context {Ty : Type} `{Concrete Ty}.
Variable alignof_max_align_t : N.
Variable NDEBUG : bool.

Implicit Types (T : Ty) (s : State Ty) (c : AnyAnimal Ty) (p this other : addr).

(** X2.  An operation that returns leaves every container alone that is
    neither the one it constructs or assigns to, nor the one it moves from,
    nor the one it destroys. *)
Theorem X2_other_containers_untouched op s s' p :
  wf_state alignof_max_align_t s ->
  exec NDEBUG op s = Ok s' ->
  target_of op <> Some p -> source_of op <> Some p -> op <> OpDtor p ->
  heap s' !! p = heap s !! p.
Proof.
  intros Hwf Hexec Ht Hs Hd.
  apply (exec_outcome alignof_max_align_t) in Hexec; [|done].
  destruct Hexec; simpl in *; try done; lookups; done.
Qed.

(** X3.  Only the construction from a value adds an object to the buffers
    of the store, and it adds one.  A move construction and a call leave
    their number unchanged; a move assignment and a destruction never
    increase it: no operation duplicates a held value. *)
Theorem X3_no_duplication op s s' :
  wf_state alignof_max_align_t s ->
  exec NDEBUG op s = Ok s' ->
  match op with
  | OpCtor _ _ _ => live (heap s') = S (live (heap s))
  | OpMoveCtor _ _ | OpPrint _ => live (heap s') = live (heap s)
  | OpMoveAssign _ _ | OpDtor _ => (live (heap s') <= live (heap s))%nat
  end.
Proof.
  intros Hwf Hexec. apply (exec_outcome alignof_max_align_t) in Hexec; [|done].
  destruct Hexec; simpl.
  - by rewrite live_insert_fresh.
  - pose proof (live_insert (<[this := holding T (fst (move_ctor T x))]> (heap s))
                  other empty_container (holding T x)) as Hl.
    rewrite lookup_insert_ne in Hl by congruence. specialize (Hl ltac:(done)).
    rewrite (live_insert_fresh (heap s) this) in Hl by done. simpl in Hl. lia.
  - by rewrite live_insert_fresh.
  - done.
  - pose proof (live_insert (<[this := holding U (fst (move_ctor U y))]> (heap s))
                  other empty_container (holding U y)) as Hl.
    rewrite lookup_insert_ne in Hl by congruence. specialize (Hl ltac:(done)).
    pose proof (live_insert (heap s) this (holding U (fst (move_ctor U y))) c ltac:(done)) as Hl'.
    simpl in Hl, Hl'. lia.
  - pose proof (live_insert (heap s) this empty_container c ltac:(done)) as Hl.
    simpl in Hl. lia.
  - done.
  - rewrite (live_delete (heap s) this c) by done. lia.
Qed.

End Safety.

(** ** How the operations compose *)

Section Composition.
Context {Ty : Type} `{Concrete Ty}.
Variable NDEBUG : bool.

Implicit Types (T U : Ty) (s : State Ty) (a b c tmp : addr).

(** X4.  Use after move.  Once a container has been moved from, a call on
    it stops in the assertion (and is undefined with [NDEBUG]); once it has
    been move-assigned a value again, the call works and prints that
    value as relocated. *)
Theorem X4_use_after_move T (x : obj T) a b s :
  heap s !! a = Some (holding T x) ->
  heap s !! b = None ->
  exec_all false [OpMoveCtor b a; OpPrint a] s = AssertionFailed "Empty AnyAnimal" /\
  exec_all true [OpMoveCtor b a; OpPrint a] s = Undefined /\
  (forall c U (y : obj U),
     c <> a -> heap s !! c = Some (holding U y) ->
     exists s1,
       exec_all NDEBUG [OpMoveCtor b a; OpMoveAssign a c] s = Ok s1 /\
       exec NDEBUG (OpPrint a) s1 = Ok (direct_call U (fst (move_ctor U y)) s1)).
Proof.
  intros Ha Hb. assert (b <> a) as Hne by congruence.
  split; [|split].
  - cbn [exec_all exec]. erewrite move_ctor_holding by done. cbn [mbind result_bind].
    by erewrite print_empty by (simpl; by lookups).
  - cbn [exec_all exec]. erewrite move_ctor_holding by done. cbn [mbind result_bind].
    by erewrite print_empty by (simpl; by lookups).
  - intros c U y Hca Hc. assert (c <> b) as Hcb by congruence.
    eexists. split.
    + cbn [exec_all exec]. erewrite move_ctor_holding by done. cbn [mbind result_bind].
      erewrite move_assign_empty_holding; [| | simpl; by lookups | simpl; lookups; exact Hc ];
        done.
    + cbn [exec]. erewrite print_holding; [done|]. simpl. by lookups.
Qed.



End Composition.

(** ** Blocks of containers: the loop, relocation and destruction *)

Section Blocks.
Context {Ty : Type} `{Concrete Ty}.
Variable NDEBUG : bool.

Implicit Types (s : State Ty) (vals : list (@Dyn Ty _)) (p old new first : addr).

Lemma exec_all_app (l1 l2 : list (Op Ty)) s :
  exec_all NDEBUG (l1 ++ l2) s = exec_all NDEBUG l1 s ≫= exec_all NDEBUG l2.
Proof.
  revert s. induction l1 as [|op l1 IH]; intros s; [done|].
  cbn [app exec_all]. destruct (exec NDEBUG op s); cbn [mbind result_bind]; auto.
Qed.

Lemma cout_app (t1 t2 : list (Event Ty)) :
  cout (t1 ++ t2) = (cout t1 ++ cout t2)%string.
Proof.
  induction t1 as [|[str| |] t1 IH]; simpl; auto.
  rewrite IH. clear. induction str as [|ch str IHstr]; [done|].
  change (String ch (str ++ (cout t1 ++ cout t2)) =
          String ch ((str ++ cout t1) ++ cout t2))%string.
  by rewrite IHstr.
Qed.

Lemma offset_from (base p : addr) :
  (Pos.to_nat base <= Pos.to_nat p)%nat ->
  p = offset base (Pos.to_nat p - Pos.to_nat base).
Proof.
  intros Hle. apply Pos2Nat.inj. rewrite offset_to_nat. lia.
Qed.

(** X7.  The loop over a sequence of containers stops at the first empty
    one: in a build with [assert] it ends in the failed assertion, with
    [NDEBUG] its behaviour is undefined, whatever follows in the
    sequence. *)
Theorem X7_loop_stops_at_empty (ps1 ps2 : list addr) vals p s c :
  Forall2 (fun q d => heap s !! q = Some (holding (projT1 d) (projT2 d))) ps1 vals ->
  heap s !! p = Some c -> vptr c = None ->
  for_each_print NDEBUG (ps1 ++ p :: ps2) s =
    if NDEBUG then Undefined else AssertionFailed "Empty AnyAnimal".
Proof.
  intros Hall. revert s Hall.
  induction ps1 as [|q ps1 IH] in vals |- *; intros s Hall Hp Hv;
    inversion Hall as [|? d ? vals' Hq Hrest]; subst.
  - cbn [app for_each_print]. rewrite (print_empty NDEBUG p s c Hp Hv).
    by destruct NDEBUG.
  - cbn [app for_each_print]. rewrite (print_holding NDEBUG _ _ q s Hq).
    cbn [mbind result_bind]. by apply (IH vals').
Qed.

(** Relocating a block of containers into raw memory: the new containers
    hold the relocated values in the same order, the old ones are empty,
    no other container has changed. *)
Lemma relocate_values old new vals s :
  (forall i d, vals !! i = Some d -> heap s !! offset old i = Some (holding_dyn d)) ->
  (forall i, (i < length vals)%nat -> heap s !! offset new i = None) ->
  exists s',
    exec_all NDEBUG (relocate old new (length vals)) s = Ok s' /\
    (forall i d, vals !! i = Some d ->
       heap s' !! offset new i = Some (holding_dyn (relocated d)) /\
       heap s' !! offset old i = Some empty_container) /\
    (forall p, (forall i, (i < length vals)%nat -> p <> offset new i /\ p <> offset old i) ->
       heap s' !! p = heap s !! p) /\
    exists tr, trace s' = trace s ++ tr /\ cout tr = "" /\
      constructions tr = length vals /\ destructions tr = length vals.
Proof.
  induction vals as [|d vals IH] using rev_ind; intros Hold Hnew.
  { exists s. split; [done|]. split; [by intros i d; rewrite lookup_nil|].
    split; [done|]. exists []. by rewrite app_nil_r. }
  rewrite length_app in *. cbn [length] in *.
  replace (length vals + 1)%nat with (S (length vals)) in * by lia.
  assert (forall i j, (i <= length vals)%nat -> (j <= length vals)%nat ->
            offset new i <> offset old j) as Hdisj.
  { intros i j Hi Hj Heq.
    destruct (lookup_lt_is_Some_2 (vals ++ [d]) j) as [d' Hd'].
    { rewrite length_app. simpl. lia. }
    pose proof (Hold j d' Hd') as Hl. rewrite <- Heq in Hl.
    rewrite Hnew in Hl by lia. done. }
  destruct IH as (s1 & Hexec & Hvals & Hframe & tr & Htr & Hcout & Hc & Hd).
  { intros i d' Hi. apply Hold. by apply lookup_app_l_Some. }
  { intros i Hi. apply Hnew. lia. }
  assert (heap s1 !! offset old (length vals) = Some (holding_dyn d)) as Ho.
  { rewrite Hframe.
    - apply Hold. by rewrite lookup_app_r, Nat.sub_diag.
    - intros i Hi. split.
      + intros Heq. symmetry in Heq. revert Heq. apply Hdisj; lia.
      + intros Heq. apply offset_inj in Heq. lia. }
  assert (heap s1 !! offset new (length vals) = None) as Hn.
  { rewrite Hframe.
    - apply Hnew. lia.
    - intros i Hi. split.
      + intros Heq. apply offset_inj in Heq. lia.
      + apply Hdisj; lia. }
  eexists. split; [|split; [|split]].
  - unfold relocate. rewrite seq_S, fmap_app, exec_all_app.
    unfold relocate in Hexec. rewrite Hexec. cbn [mbind result_bind fmap list_fmap exec_all exec].
    simpl. erewrite move_ctor_holding by (try exact Hn; exact Ho). done.
  - intros i d' Hi. simpl. apply lookup_app_Some in Hi as [Hi | [Hlen Hi]].
    + pose proof (lookup_lt_Some _ _ _ Hi) as Hlt.
      destruct (Hvals i d' Hi) as [Hn' Ho'].
      assert (offset new (length vals) <> offset new i) as E1
        by (intros Heq; apply offset_inj in Heq; lia).
      assert (offset old (length vals) <> offset old i) as E2
        by (intros Heq; apply offset_inj in Heq; lia).
      assert (offset new (length vals) <> offset old i) as E3 by (apply Hdisj; lia).
      assert (offset new i <> offset old (length vals)) as E4 by (apply Hdisj; lia).
      by lookups.
    + assert (i = length vals) as ->.
      { apply lookup_lt_Some in Hi. simpl in Hi. lia. }
      rewrite Nat.sub_diag in Hi. injection Hi as <-.
      split; [|by lookups].
      rewrite lookup_insert_ne by (intros Heq; symmetry in Heq; revert Heq; apply Hdisj; lia).
      by lookups.
  - intros p Hp. simpl. destruct (Hp (length vals) ltac:(lia)) as [Hpn Hpo].
    lookups. apply Hframe. intros i Hi. apply Hp. lia.
  - eexists. simpl. rewrite Htr, <- app_assoc. split; [done|].
    rewrite cout_app, constructions_app, destructions_app, Hcout, Hc, Hd. simpl.
    split; [done|]. split; lia.
Qed.

(** Destroying a block of moved-from containers runs no destructor. *)
Lemma destroy_range_empty first (n : nat) s :
  (forall i, (i < n)%nat -> heap s !! offset first i = Some empty_container) ->
  exists s',
    exec_all NDEBUG (destroy_range first n) s = Ok s' /\
    trace s' = trace s /\
    (forall i, (i < n)%nat -> heap s' !! offset first i = None) /\
    (forall p, (forall i, (i < n)%nat -> p <> offset first i) -> heap s' !! p = heap s !! p).
Proof.
  induction n as [|n IH]; intros Hall.
  { exists s. repeat split; auto. intros i Hi. lia. }
  destruct IH as (s1 & Hexec & Htr & Hgone & Hframe); [intros i Hi; apply Hall; lia|].
  assert (heap s1 !! offset first n = Some empty_container) as Hn.
  { rewrite Hframe; [apply Hall; lia|].
    intros i Hi Heq. apply offset_inj in Heq. lia. }
  eexists. split; [|split; [|split]].
  - unfold destroy_range in *. rewrite seq_S, fmap_app, exec_all_app, Hexec.
    cbn [mbind result_bind fmap list_fmap exec_all exec]. simpl.
    erewrite dtor_empty by (try exact Hn; done). done.
  - done.
  - intros i Hi. simpl. destruct (decide (i = n)) as [->|Hne]; [by lookups|].
    rewrite lookup_delete_ne by (intros Heq; apply offset_inj in Heq; lia).
    apply Hgone. lia.
  - intros p Hp. simpl. rewrite lookup_delete_ne by (intros Heq; by apply (Hp n ltac:(lia))).
    apply Hframe. intros i Hi. apply Hp. lia.
Qed.

(** Destroying a block of containers that hold values runs the destructor
    of each held value once, in the order in which [destroy_range] takes
    them, from the first to the last. *)
Lemma destroy_range_holding first vals s :
  (forall i d, vals !! i = Some d -> heap s !! offset first i = Some (holding_dyn d)) ->
  exists s',
    exec_all NDEBUG (destroy_range first (length vals)) s = Ok s' /\
    trace s' = trace s ++ imap (fun i d => Destroyed (InBuffer (offset first i)) d) vals /\
    (forall i, (i < length vals)%nat -> heap s' !! offset first i = None) /\
    (forall p, (forall i, (i < length vals)%nat -> p <> offset first i) ->
       heap s' !! p = heap s !! p).
Proof.
  induction vals as [|d vals IH] using rev_ind; intros Hall.
  { exists s. split; [done|]. split; [by rewrite app_nil_r|]. split; [|done].
    intros i Hi. simpl in Hi. lia. }
  destruct IH as (s1 & Hexec & Htr & Hgone & Hframe).
  { intros i d' Hi. apply Hall. by apply lookup_app_l_Some. }
  assert (heap s1 !! offset first (length vals) = Some (holding_dyn d)) as Hn.
  { rewrite Hframe.
    - apply Hall. by rewrite lookup_app_r, Nat.sub_diag.
    - intros i Hi Heq. apply offset_inj in Heq. lia. }
  rewrite length_app. cbn [length].
  replace (length vals + 1)%nat with (S (length vals)) by lia.
  eexists. split; [|split; [|split]].
  - unfold destroy_range in *. rewrite seq_S, fmap_app, exec_all_app, Hexec.
    cbn [mbind result_bind fmap list_fmap exec_all exec]. simpl.
    erewrite dtor_holding by exact Hn. done.
  - simpl. rewrite Htr, imap_app, <- app_assoc. simpl. rewrite Nat.add_0_r.
    by destruct d.
  - intros i Hi. simpl. destruct (decide (i = length vals)) as [->|Hne]; [by lookups|].
    rewrite lookup_delete_ne by (intros Heq; apply offset_inj in Heq; lia).
    apply Hgone. lia.
  - intros p Hp. simpl.
    rewrite lookup_delete_ne by (intros Heq; by apply (Hp (length vals) ltac:(lia))).
    apply Hframe. intros i Hi. apply Hp. lia.
Qed.

(** Destroying containers that hold values, in any order that names no
    container twice, runs the destructor of each held value once, in that
    order. *)
Lemma destroy_in_holding first vals (order : list nat) s :
  NoDup order ->
  (forall i, i ∈ order ->
     exists d, vals !! i = Some d /\ heap s !! offset first i = Some (holding_dyn d)) ->
  exists s',
    exec_all NDEBUG (destroy_in first order) s = Ok s' /\
    trace s' = trace s ++
      omap (fun i => Destroyed (InBuffer (offset first i)) <$> vals !! i) order /\
    (forall i, i ∈ order -> heap s' !! offset first i = None) /\
    (forall p, (forall i, i ∈ order -> p <> offset first i) -> heap s' !! p = heap s !! p).
Proof.
  intros Hnd. revert s. induction Hnd as [|i order Hi Hnd IH]; intros s Hall.
  { exists s. split; [done|]. split; [by rewrite app_nil_r|]. split; [|done].
    intros i Hi. by apply elem_of_nil in Hi. }
  destruct (Hall i ltac:(by left)) as (d & Hd & Hhold).
  destruct (IH {| heap := delete (offset first i) (heap s);
                  trace := trace s ++ [Destroyed (InBuffer (offset first i)) d] |})
    as (s' & Hexec & Htr & Hgone & Hframe).
  { intros j Hj. destruct (Hall j ltac:(by right)) as (d' & Hd' & Hhold').
    exists d'. split; [done|]. simpl.
    rewrite lookup_delete_ne; [done|].
    intros Heq. apply offset_inj in Heq. congruence. }
  exists s'. split; [|split; [|split]].
  - unfold destroy_in in *. cbn [fmap list_fmap exec_all exec].
    erewrite dtor_holding by exact Hhold. cbn [mbind result_bind].
    destruct d as [T x]. exact Hexec.
  - rewrite Htr. cbn [omap list_omap]. rewrite Hd. simpl. by rewrite <- app_assoc.
  - intros j Hj. apply elem_of_cons in Hj as [->|Hj]; [|by apply Hgone].
    rewrite Hframe; [simpl; by lookups|].
    intros j Hj Heq. apply offset_inj in Heq. congruence.
  - intros p Hp. rewrite Hframe by (intros j Hj; apply Hp; by right).
    simpl. rewrite lookup_delete_ne; [done|].
    intros Heq. by apply (Hp i ltac:(by left)).
Qed.

(** Taken from the first to the last, the events of [destroy_in_holding]
    are those of the values in their order. *)
Lemma omap_lookup_seq {A B : Type} (f : nat -> A -> B) (l : list A) :
  omap (fun i => f i <$> l !! i) (seq 0 (length l)) = imap f l.
Proof.
  revert f. induction l as [|a l IH]; intros f; [done|].
  cbn [length seq omap list_omap lookup list_lookup fmap option_fmap option_map imap].
  f_equal. rewrite <- (IH (f ∘ S)), <- fmap_S_seq.
  clear. generalize (seq 0 (length l)). intros k.
  induction k as [|i k IHk]; [done|]. cbn [fmap list_fmap omap list_omap].
  simpl. destruct (l !! i); simpl; by rewrite IHk.
Qed.

End Blocks.

(** ** A vector of containers *)

Section Rosters.
Context {Ty : Type} `{Concrete Ty}.
Variable NDEBUG : bool.
Variable growth : nat -> nat.

(** The move constructors make an object equal to their source, as those
    of the program's classes do. *)
Hypothesis move_preserves : forall (T : Ty) (x : obj T), fst (move_ctor T x) = x.

Implicit Types (s : State Ty) (vals : list (@Dyn Ty _)) (v : Vector) (p brk : addr).

Lemma relocated_id (d : @Dyn Ty _) : relocated d = d.
Proof. destruct d as [T x]. unfold relocated, dyn. simpl. by rewrite move_preserves. Qed.

Lemma construct_at_spec p (T : Ty) (arg : obj T) s :
  heap s !! p = None ->
  construct_at p T arg s =
    Ok {| heap := <[p := holding T arg]> (heap s);
          trace := trace s ++ [Constructed Automatic (dyn T arg);
                               Constructed (InBuffer p) (dyn T arg);
                               Destroyed Automatic (dyn T (snd (move_ctor T arg)))] |}.
Proof.
  intros Hp. unfold construct_at. cbv zeta. rewrite ctor_spec by done.
  rewrite !move_preserves. simpl. by rewrite <- app_assoc.
Qed.

Lemma represents_fresh_slot v brk s vals i :
  represents v brk s vals -> (size v <= i)%nat -> heap s !! element v i = None.
Proof.
  intros (_ & _ & _ & _ & Honly) Hi.
  destruct (heap s !! element v i) as [c|] eqn:Hc; [|done].
  destruct (Honly (element v i)) as (j & Hj & Heq); [by eexists|].
  apply offset_inj in Heq. lia.
Qed.

Lemma represents_fresh_above v brk s vals p :
  represents v brk s vals -> (Pos.to_nat brk <= Pos.to_nat p)%nat -> heap s !! p = None.
Proof.
  intros (_ & Hcap & Hbrk & _ & Honly) Hp.
  destruct (heap s !! p) as [c|] eqn:Hc; [|done].
  destruct (Honly p) as (j & Hj & ->); [by eexists|].
  unfold element in Hp. rewrite offset_to_nat in Hp. lia.
Qed.

Lemma emplace_back_temporary_represents (T : Ty) (x : obj T) v brk s vals :
  represents v brk s vals ->
  exists v' brk' s',
    emplace_back_temporary NDEBUG growth T x v brk s = Ok (v', brk', s') /\
    represents v' brk' s' (vals ++ [dyn T x]) /\
    exists tr, trace s' = trace s ++ tr /\ cout tr = "" /\
      constructions tr = S (destructions tr).
Proof.
  intros Hrep. pose proof Hrep as (Hsize & Hcap & Hbrk & Hvals & Honly).
  unfold emplace_back_temporary, emplace_back.
  destruct (size v <? capacity v)%nat eqn:Hroom.
  - apply Nat.ltb_lt in Hroom.
    rewrite construct_at_spec by (simpl; by eapply represents_fresh_slot).
    cbn [mbind result_bind]. eexists _, _, _. split; [done|]. split.
    + split; [|split; [|split; [|split]]]; simpl.
      * rewrite length_app. simpl. lia.
      * lia.
      * done.
      * intros i d Hi. unfold element; simpl. apply lookup_app_Some in Hi as [Hi | [Hlen Hi]].
        -- pose proof (lookup_lt_Some _ _ _ Hi) as Hlt.
           rewrite lookup_insert_ne by (intros Heq; apply offset_inj in Heq; lia).
           by apply Hvals.
        -- assert (i = size v) as ->.
           { apply lookup_lt_Some in Hi. simpl in Hi. lia. }
           rewrite Hsize, Nat.sub_diag in Hi. injection Hi as <-.
           unfold element. by rewrite lookup_insert_eq.
      * intros p [c Hp]. unfold element; simpl.
        destruct (decide (p = element v (size v))) as [->|Hne].
        -- exists (size v). split; [lia|done].
        -- rewrite lookup_insert_ne in Hp by done.
           destruct (Honly p) as (i & Hi & ->); [by eexists|].
           exists i. split; [lia|done].
    + eexists. simpl. rewrite <- !app_assoc. split; [done|]. done.
  - apply Nat.ltb_ge in Hroom. assert (capacity v = size v) as Hfull by lia.
    set (n := Nat.max (growth (capacity v)) (S (size v))).
    rewrite construct_at_spec
      by (simpl; eapply represents_fresh_above; [done | rewrite offset_to_nat; lia]).
    cbn [mbind result_bind].
    match goal with |- context [exec_all NDEBUG (relocate _ _ _) ?st] => set (s1 := st) end.
    assert (forall i d, vals !! i = Some d ->
              heap s1 !! offset (start v) i = Some (holding_dyn d)) as Hold1.
    { intros i d Hi. pose proof (lookup_lt_Some _ _ _ Hi) as Hlt. subst s1. simpl.
      rewrite lookup_insert_ne.
      - by apply Hvals.
      - intros Heq. apply (f_equal Pos.to_nat) in Heq. rewrite !offset_to_nat in Heq. lia. }
    assert (forall i, (i < length vals)%nat -> heap s1 !! offset brk i = None) as Hnew1.
    { intros i Hi. subst s1. simpl.
      rewrite lookup_insert_ne by (intros Heq; apply offset_inj in Heq; lia).
      eapply represents_fresh_above; [done | rewrite offset_to_nat; lia]. }
    destruct (relocate_values NDEBUG (start v) brk vals s1 Hold1 Hnew1)
      as (s2 & Hexec2 & Hvals2 & Hframe2 & tr2 & Htr2 & Hcout2 & Hc2 & Hd2).
    rewrite Hsize, Hexec2. cbn [mbind result_bind].
    destruct (destroy_range_empty NDEBUG (start v) (length vals) s2)
      as (s3 & Hexec3 & Htr3 & Hgone3 & Hframe3).
    { intros i Hi. destruct (lookup_lt_is_Some_2 vals i Hi) as [d Hd].
      by destruct (Hvals2 i d Hd). }
    rewrite Hexec3. cbn [mbind result_bind].
    assert (forall i j, (i <= length vals)%nat -> (j < length vals)%nat ->
              offset brk i <> offset (start v) j) as Hdisj.
    { intros i j Hi Hj Heq. apply (f_equal Pos.to_nat) in Heq.
      rewrite !offset_to_nat in Heq. lia. }
    eexists _, _, _. split; [done|]. split.
    + split; [|split; [|split; [|split]]]; simpl.
      * rewrite length_app. simpl. lia.
      * subst n. lia.
      * rewrite offset_to_nat. lia.
      * intros i d Hi. unfold element; simpl. rewrite Hframe3.
        2:{ intros j Hj. apply lookup_lt_Some in Hi. rewrite length_app in Hi. simpl in Hi.
            apply Hdisj; lia. }
        apply lookup_app_Some in Hi as [Hi | [Hlen Hi]].
        -- destruct (Hvals2 i d Hi) as [Hn _]. by rewrite relocated_id in Hn.
        -- assert (i = length vals) as ->.
           { apply lookup_lt_Some in Hi. simpl in Hi. lia. }
           rewrite Nat.sub_diag in Hi. injection Hi as <-.
           rewrite Hframe2.
           ++ subst s1. simpl. rewrite Hsize. by rewrite lookup_insert_eq.
           ++ intros j Hj. split.
              ** intros Heq. apply offset_inj in Heq. lia.
              ** apply Hdisj; lia.
      * intros p Hp. unfold element; simpl.
        destruct (decide (Pos.to_nat (start v) <= Pos.to_nat p
                          < Pos.to_nat (start v) + length vals)%nat) as [Hin|Hout].
        { rewrite (offset_from (start v) p) in Hp by lia.
          rewrite Hgone3 in Hp by lia. by destruct Hp. }
        destruct (decide (Pos.to_nat brk <= Pos.to_nat p
                          < Pos.to_nat brk + S (length vals))%nat) as [Hin'|Hout'].
        { exists (Pos.to_nat p - Pos.to_nat brk)%nat. split; [lia|].
          apply offset_from. lia. }
        rewrite Hframe3 in Hp.
        2:{ intros j Hj Heq. apply (f_equal Pos.to_nat) in Heq.
            rewrite offset_to_nat in Heq. lia. }
        rewrite Hframe2 in Hp.
        2:{ intros j Hj. split; intros Heq; apply (f_equal Pos.to_nat) in Heq;
              rewrite offset_to_nat in Heq; lia. }
        subst s1. simpl in Hp. rewrite lookup_insert_ne in Hp.
        2:{ intros Heq. apply (f_equal Pos.to_nat) in Heq.
            rewrite offset_to_nat in Heq. lia. }
        destruct (Honly p Hp) as (j & Hj & ->).
        exfalso. apply Hout. unfold element. rewrite offset_to_nat. lia.
    + eexists. simpl. rewrite Htr3, Htr2. subst s1. simpl.
      rewrite <- !app_assoc. split; [done|].
      rewrite !cout_app, !constructions_app, !destructions_app, Hcout2, Hc2, Hd2. simpl.
      split; [done|lia].
Qed.

Lemma emplace_all_represents (more : list (@Dyn Ty _)) v brk s vals :
  represents v brk s vals ->
  exists v' brk' s',
    emplace_all NDEBUG growth more v brk s = Ok (v', brk', s') /\
    represents v' brk' s' (vals ++ more) /\
    exists tr, trace s' = trace s ++ tr /\ cout tr = "" /\
      constructions tr = (destructions tr + length more)%nat.
Proof.
  revert v brk s vals. induction more as [|d more IH]; intros v brk s vals Hrep.
  - exists v, brk, s. split; [done|]. rewrite app_nil_r. split; [done|].
    exists []. by rewrite app_nil_r.
  - destruct (emplace_back_temporary_represents (projT1 d) (projT2 d) v brk s vals Hrep)
      as (v1 & brk1 & s1 & Hexec1 & Hrep1 & tr1 & Htr1 & Hcout1 & Hcount1).
    replace (dyn (projT1 d) (projT2 d)) with d in Hrep1 by (by destruct d).
    destruct (IH v1 brk1 s1 (vals ++ [d]) Hrep1)
      as (v' & brk' & s' & Hexec & Hrep' & tr & Htr & Hcout & Hcount).
    exists v', brk', s'. split; [|split].
    + cbn [emplace_all]. rewrite Hexec1. cbn [mbind result_bind]. exact Hexec.
    + by rewrite <- app_assoc in Hrep'.
    + exists (tr1 ++ tr). rewrite Htr, Htr1, <- app_assoc. split; [done|].
      rewrite cout_app, constructions_app, destructions_app, Hcout1, Hcout. simpl.
      split; [done|lia].
Qed.

Lemma represents_nothing :
  represents {| start := 1; size := 0; capacity := 0 |} 1%positive (@initial Ty _) [].
Proof.
  split; [done|]. split; [done|]. split; [simpl; lia|]. split.
  - intros i d Hi. by rewrite lookup_nil in Hi.
  - intros p [c Hp]. simpl in Hp. by rewrite lookup_empty in Hp.
Qed.

Lemma represents_elements v brk s vals :
  represents v brk s vals ->
  Forall2 (fun p d => heap s !! p = Some (holding (projT1 d) (projT2 d))) (elements v) vals.
Proof.
  intros (Hsize & _ & _ & Hvals & _). apply Forall2_same_length_lookup_2.
  - unfold elements. by rewrite length_fmap, length_seq.
  - intros i p d Hp Hd. unfold elements in Hp. rewrite list_lookup_fmap in Hp.
    destruct (seq 0 (size v) !! i) as [j|] eqn:Hj; [|done].
    apply lookup_seq in Hj as [-> _]. simpl in Hp. injection Hp as <-.
    by apply Hvals.
Qed.

Lemma counts_destroyed (f : nat -> addr) vals :
  cout (imap (fun i d => Destroyed (InBuffer (f i)) d) vals) = "" /\
  constructions (imap (fun i d => Destroyed (InBuffer (f i)) d) vals) = 0%nat /\
  destructions (imap (fun i d => Destroyed (InBuffer (f i)) d) vals) = length vals.
Proof.
  revert f. induction vals as [|d vals IH]; intros f; [done|].
  destruct (IH (f ∘ S)) as (Hc & Hn & Hd). simpl. split; [exact Hc|].
  split; [exact Hn|]. f_equal. exact Hd.
Qed.

Lemma counts_lines vals :
  constructions (flat_map (fun d => [Cout (method_print_food_requirements (projT1 d) (projT2 d));
                                     Cout endl]) vals) = 0%nat /\
  destructions (flat_map (fun d => [Cout (method_print_food_requirements (projT1 d) (projT2 d));
                                    Cout endl]) vals) = 0%nat.
Proof. induction vals as [|d vals [IH1 IH2]]; [done|]. simpl. auto. Qed.

Lemma string_app_nil_r (x : string) : (x ++ "")%string = x.
Proof.
  induction x as [|ch x IH]; [done|].
  change (String ch (x ++ "")%string = String ch x). by rewrite IH.
Qed.

(** X10.  A roster of any length.  When the move constructors of the held
    types make equal objects, the program of [main] run on any sequence of
    values, with any growth policy of the vector, returns 0 after writing to
    [std::cout] the line of each value followed by a line feed (character
    10), in the order of the sequence and once per position (equal values
    are not merged); at the end no container is left and every object
    constructed in a buffer has been destroyed. *)
Theorem X10_roster_prints_in_order vals :
  exists s,
    roster_program NDEBUG growth vals = Ok (0%Z, s) /\
    cout (trace s) =
      cout (flat_map (fun d => [Cout (method_print_food_requirements (projT1 d) (projT2 d));
                                Cout (String "010"%char EmptyString)]) vals) /\
    heap s = ∅ /\
    constructions (trace s) = destructions (trace s).
Proof.
  destruct (emplace_all_represents vals _ _ _ [] represents_nothing)
    as (v & brk & s1 & Hexec & Hrep & tr & Htr & Hcout & Hcount).
  simpl in Hrep, Htr. pose proof Hrep as (Hsize & _ & _ & Hvals & Honly).
  unfold roster_program. cbv zeta. rewrite Hexec. cbn [mbind result_bind].
  rewrite (for_each_print_in_order NDEBUG _ vals s1 (represents_elements _ _ _ _ Hrep)).
  cbn [mbind result_bind]. unfold Vector_dtor. rewrite Hsize.
  match goal with |- context [exec_all NDEBUG _ ?st] =>
    destruct (destroy_range_holding NDEBUG (start v) vals st Hvals)
      as (s3 & Hexec3 & Htr3 & Hgone & Hframe)
  end.
  rewrite Hexec3. cbn [mbind result_bind]. exists s3. split; [done|].
  destruct (counts_destroyed (offset (start v)) vals) as (Hc1 & Hc2 & Hc3).
  destruct (counts_lines vals) as [Hl1 Hl2].
  simpl in Htr3, Hgone, Hframe. rewrite Htr in Htr3.
  split; [|split].
  - rewrite Htr3, !cout_app, Hcout, Hc1. simpl. apply string_app_nil_r.
  - apply map_empty. intros p.
    destruct (heap s3 !! p) as [c|] eqn:Hp; [|done]. exfalso.
    destruct (decide (Pos.to_nat (start v) <= Pos.to_nat p
                      < Pos.to_nat (start v) + length vals)%nat) as [Hin|Hout].
    + rewrite (offset_from (start v) p) in Hp by lia. rewrite Hgone in Hp by lia. done.
    + rewrite Hframe in Hp.
      2:{ intros i Hi Heq. apply (f_equal Pos.to_nat) in Heq.
          rewrite offset_to_nat in Heq. lia. }
      destruct (Honly p) as (i & Hi & ->); [by eexists|].
      apply Hout. unfold element. rewrite offset_to_nat. lia.
  - rewrite Htr3, !constructions_app, !destructions_app, Hcount, Hc2, Hc3, Hl1, Hl2. lia.
Qed.

End Rosters.

Section Vectors.
Context {Ty : Type} `{Concrete Ty}.
Variable NDEBUG : bool.

Implicit Types (s : State Ty) (vals : list (@Dyn Ty _)) (v : Vector) (p old new : addr).


(** X9.  The end of a vector that holds the values [vals].  In whatever
    order the library destroys the elements (any arrangement [order] of the
    indices; [Vector_dtor] is the one from the first to the last), the
    destructor of the vector returns, the events it adds are the
    destructions of the held values, each exactly once, and no container is
    left in the store. *)
Theorem X9_vector_destruction v brk s vals (order : list nat) :
  represents v brk s vals ->
  order ≡ₚ seq 0 (size v) ->
  Vector_dtor NDEBUG v s = Vector_dtor_in NDEBUG (seq 0 (size v)) v s /\
  exists s' tr,
    Vector_dtor_in NDEBUG order v s = Ok s' /\
    trace s' = trace s ++ tr /\
    tr ≡ₚ imap (fun i d => Destroyed (InBuffer (element v i)) d) vals /\
    heap s' = ∅.
Proof.
  intros (Hsize & _ & _ & Hvals & Honly) Hperm. split; [done|].
  assert (forall i, i ∈ order <-> (i < length vals)%nat) as Hin.
  { intros i. rewrite Hperm, elem_of_seq, Hsize. lia. }
  destruct (destroy_in_holding NDEBUG (start v) vals order s)
    as (s' & Hexec & Htr & Hgone & Hframe).
  { rewrite Hperm. apply NoDup_seq. }
  { intros i Hi. apply Hin in Hi.
    destruct (lookup_lt_is_Some_2 vals i Hi) as [d Hd]. exists d. split; [done|].
    by apply Hvals. }
  eexists s', _. split; [exact Hexec|]. split; [exact Htr|]. split.
  - rewrite Hperm, Hsize. by rewrite omap_lookup_seq.
  - apply map_empty. intros p.
    destruct (heap s' !! p) as [c|] eqn:Hp; [|done]. exfalso.
    destruct (decide (Pos.to_nat (start v) <= Pos.to_nat p
                      < Pos.to_nat (start v) + length vals)%nat) as [Hlt|Hout].
    + rewrite (offset_from (start v) p) in Hp by lia.
      rewrite Hgone in Hp by (apply Hin; lia). done.
    + rewrite Hframe in Hp.
      2:{ intros i Hi Heq. apply Hin in Hi. apply (f_equal Pos.to_nat) in Heq.
          rewrite offset_to_nat in Heq. lia. }
      destruct (Honly p) as (i & Hi & ->); [by eexists|].
      apply Hout. unfold element. rewrite offset_to_nat. lia.
Qed.

Lemma cast_other (T U : Ty) (x : obj T) : T <> U -> cast U (dyn T x) = None.
Proof. intros Hne. unfold cast, dyn. by destruct (decide (T = U)). Qed.

(** X11.  The entries of a dispatch table do not check what they are given:
    on a buffer that holds an object of another type, or no object, each of
    the three entries of the table of [U] has undefined behaviour.  Only
    the agreement of [vptr] with the held object keeps the container's
    member functions away from this. *)
Theorem X11_table_of_another_type (U : Ty) p dst s c :
  heap s !! p = Some c ->
  match storage_ c with
  | [] => True
  | d :: _ => projT1 d <> U
  end ->
  print_food_requirements (vtable_for U) p s = Undefined /\
  destroy (vtable_for U) p s = Undefined /\
  move (vtable_for U) p dst s = Undefined.
Proof.
  intros Hp Hc.
  assert (object_at U p s = Undefined) as Hobj.
  { unfold object_at. rewrite (load_Some _ _ _ Hp). simpl.
    destruct (storage_ c) as [|[T x] l]; [done|]. simpl in Hc.
    change (existT T x) with (dyn T x). by rewrite (cast_other T U x Hc). }
  cbn [print_food_requirements destroy move vtable_for]. unfold destroy_at.
  by rewrite Hobj.
Qed.

End Vectors.

(** ** The animals *)

Section Animals.

Lemma list_ascii_of_string_app (x y : string) :
  list_ascii_of_string (x ++ y)%string = list_ascii_of_string x ++ list_ascii_of_string y.
Proof.
  induction x as [|ch x IH]; [done|].
  change (ch :: list_ascii_of_string (x ++ y)%string =
          ch :: (list_ascii_of_string x ++ list_ascii_of_string y)).
  by rewrite IH.
Qed.

Lemma list_ascii_of_string_inj (x y : string) :
  list_ascii_of_string x = list_ascii_of_string y -> x = y.
Proof.
  intros Heq. rewrite <- (string_of_list_ascii_of_string x),
    <- (string_of_list_ascii_of_string y). by rewrite Heq.
Qed.

(** The last eight characters of what each class prints tell the classes
    apart. *)
Lemma line_tail (size_of_animal align_of_animal : N) (T : AnimalClass) (a : Animal) :
  firstn 8 (reverse (list_ascii_of_string
    (@method_print_food_requirements _ (zoo size_of_animal align_of_animal) T a))) =
  firstn 8 (reverse (list_ascii_of_string
    (@method_print_food_requirements _ (zoo size_of_animal align_of_animal) T (Animal_ctor "")))).
Proof.
  destruct T; simpl;
    unfold Elephant_print_food_requirements, Zebra_print_food_requirements,
      Lion_print_food_requirements, Penguin_print_food_requirements,
      Animal_print_food_requirements;
    rewrite !list_ascii_of_string_app, !reverse_app; reflexivity.
Qed.

(** X12.  The line an animal prints identifies it: two objects of the four
    classes print the same line only if they are of the same class and
    have the same name. *)
Theorem X12_line_identifies_animal (size_of_animal align_of_animal : N)
    (T U : AnimalClass) (a b : Animal) :
  @method_print_food_requirements _ (zoo size_of_animal align_of_animal) T a =
  @method_print_food_requirements _ (zoo size_of_animal align_of_animal) U b ->
  T = U /\ get_name a = get_name b.
Proof.
  intros Heq.
  assert (T = U) as <-.
  { pose proof (line_tail size_of_animal align_of_animal T a) as Ha.
    pose proof (line_tail size_of_animal align_of_animal U b) as Hb.
    rewrite Heq, Hb in Ha. clear -Ha. destruct T, U; try done; by vm_compute in Ha. }
  split; [done|]. apply list_ascii_of_string_inj.
  apply (f_equal list_ascii_of_string) in Heq.
  destruct T; simpl in Heq;
    unfold Elephant_print_food_requirements, Zebra_print_food_requirements,
      Lion_print_food_requirements, Penguin_print_food_requirements,
      Animal_print_food_requirements in Heq;
    rewrite !list_ascii_of_string_app in Heq;
    apply app_inj_2 in Heq as [Heq _]; try done;
    by apply app_inj_2 in Heq as [Heq _].
Qed.

(** [main] is the roster program for a Lion, a Zebra and an Elephant. *)
Lemma main_is_roster (size_of_animal align_of_animal : N) (NDEBUG : bool)
    (growth : nat -> nat) :
  main size_of_animal align_of_animal NDEBUG growth =
  @roster_program _ (zoo size_of_animal align_of_animal) NDEBUG growth
    [existT Lion Lion_ctor; existT Zebra Zebra_ctor; existT Elephant Elephant_ctor].
Proof.
  unfold main, roster_program. cbv zeta. cbn [emplace_all projT1 projT2].
  destruct (emplace_back_temporary _ _ Lion _ _ _ _) as [[[v1 b1] s1]| |];
    cbn [mbind result_bind]; [|done..].
  destruct (emplace_back_temporary _ _ Zebra _ _ _ _) as [[[v2 b2] s2]| |];
    cbn [mbind result_bind]; [|done..].
  by destruct (emplace_back_temporary _ _ Elephant _ _ _ _) as [[[v3 b3] s3]| |].
Qed.

End Animals.

(** * The further properties at concrete inputs *)

Section MoreExamples.
#[local] Existing Instance zoo_x86_64.
#[local] Hint Mode Concrete ! : typeclass_instances.

Lemma wf_state_lion_and_zebra : wf_state max_align_x86_64 lion_and_zebra.
Proof.
  destruct (@exec_all_balance AnimalClass zoo_x86_64 max_align_x86_64 false
              [Init 1%positive (OfType Lion (Lion_ctor : @obj AnimalClass zoo_x86_64 Lion));
               Init 2%positive (OfType Zebra (Zebra_ctor : @obj AnimalClass zoo_x86_64 Zebra))]
              [OpCtor Lion (Lion_ctor : @obj AnimalClass zoo_x86_64 Lion) 1%positive;
               OpCtor Zebra (Zebra_ctor : @obj AnimalClass zoo_x86_64 Zebra) 2%positive]
              initial lion_and_zebra) as [Hwf _].
  - apply (wf_state_initial max_align_x86_64).
  - by repeat constructor.
  - reflexivity.
  - exact Hwf.
Qed.

Lemma lion_and_zebra_hold i (d : @Dyn _ zoo_x86_64) :
  [the_lion; the_zebra] !! i = Some d ->
  heap lion_and_zebra !! offset 1%positive i = Some (holding_dyn d).
Proof. destruct i as [|[|i]]; simpl; intros [= <-]; reflexivity. Qed.

Lemma lion_and_zebra_only p :
  is_Some (heap lion_and_zebra !! p) -> p = 1%positive \/ p = 2%positive.
Proof.
  replace (heap lion_and_zebra) with
    (<[2%positive := holding Zebra Zebra_ctor]>
       (<[1%positive := holding Lion Lion_ctor]> (∅ : gmap addr (AnyAnimal AnimalClass))))
    by reflexivity.
  intros [c Hp].
  apply lookup_insert_Some in Hp as [[<- _]|[_ Hp]]; [by right|].
  apply lookup_insert_Some in Hp as [[<- _]|[_ Hp]]; [by left|].
  by rewrite lookup_empty in Hp.
Qed.

Lemma X2_witness :
  wf_state max_align_x86_64 lion_and_zebra /\
  exec false (OpMoveCtor 3%positive 1%positive) lion_and_zebra =
    Ok (run [OpCtor Lion Lion_ctor 1%positive; OpCtor Zebra Zebra_ctor 2%positive;
             OpMoveCtor 3%positive 1%positive]) /\
  heap (run [OpCtor Lion Lion_ctor 1%positive; OpCtor Zebra Zebra_ctor 2%positive;
             OpMoveCtor 3%positive 1%positive]) !! 2%positive =
    heap lion_and_zebra !! 2%positive.
Proof.
  split; [apply wf_state_lion_and_zebra|]. split; [reflexivity|].
  apply (@X2_other_containers_untouched AnimalClass zoo_x86_64 max_align_x86_64 false
           (OpMoveCtor 3%positive 1%positive)).
  - apply wf_state_lion_and_zebra.
  - reflexivity.
  - simpl. congruence.
  - simpl. congruence.
  - congruence.
Defined.

Lemma X3_witness :
  wf_state max_align_x86_64 lion_and_zebra /\
  exec false (OpMoveCtor 3%positive 1%positive) lion_and_zebra =
    Ok (run [OpCtor Lion Lion_ctor 1%positive; OpCtor Zebra Zebra_ctor 2%positive;
             OpMoveCtor 3%positive 1%positive]) /\
  live (heap (run [OpCtor Lion Lion_ctor 1%positive; OpCtor Zebra Zebra_ctor 2%positive;
                   OpMoveCtor 3%positive 1%positive])) =
    live (heap lion_and_zebra).
Proof.
  split; [apply wf_state_lion_and_zebra|]. split; [reflexivity|].
  apply (@X3_no_duplication AnimalClass zoo_x86_64 max_align_x86_64 false
           (OpMoveCtor 3%positive 1%positive)).
  - apply wf_state_lion_and_zebra.
  - reflexivity.
Defined.

Lemma X4_witness :
  heap lion_and_zebra !! 1%positive = Some (holding Lion Lion_ctor) /\
  heap lion_and_zebra !! 3%positive = None /\
  exec_all false [OpMoveCtor 3%positive 1%positive; OpPrint 1%positive] lion_and_zebra =
    AssertionFailed "Empty AnyAnimal".
Proof.
  split; [reflexivity|]. split; [reflexivity|].
  apply (@X4_use_after_move AnimalClass zoo_x86_64 false Lion
           (Lion_ctor : @obj AnimalClass zoo_x86_64 Lion) 1%positive 3%positive lion_and_zebra).
  - reflexivity.
  - reflexivity.
Defined.



Lemma X7_witness :
  heap lion_and_zebra !! 1%positive = Some (holding Lion Lion_ctor) /\
  heap (run [OpCtor Lion Lion_ctor 1%positive; OpCtor Zebra Zebra_ctor 2%positive;
             OpMoveCtor 3%positive 2%positive]) !! 2%positive = Some empty_container /\
  for_each_print false [1%positive; 2%positive; 3%positive]
    (run [OpCtor Lion Lion_ctor 1%positive; OpCtor Zebra Zebra_ctor 2%positive;
          OpMoveCtor 3%positive 2%positive]) = AssertionFailed "Empty AnyAnimal".
Proof.
  split; [reflexivity|]. split; [reflexivity|].
  apply (@X7_loop_stops_at_empty AnimalClass zoo_x86_64 false [1%positive] [3%positive]
           [the_lion] 2%positive _ empty_container).
  - repeat constructor.
  - reflexivity.
  - reflexivity.
Defined.


Lemma represents_lion_and_zebra :
  represents {| start := 1; size := 2; capacity := 2 |} 3%positive lion_and_zebra
    [the_lion; the_zebra].
Proof.
  split; [done|]. split; [done|]. split; [simpl; lia|]. split.
  - apply lion_and_zebra_hold.
  - intros p Hp. destruct (lion_and_zebra_only p Hp) as [-> | ->].
    + exists 0%nat. split; [simpl; lia | reflexivity].
    + exists 1%nat. split; [simpl; lia | reflexivity].
Qed.

Lemma X9_witness :
  represents {| start := 1; size := 2; capacity := 2 |} 3%positive lion_and_zebra
    [the_lion; the_zebra] /\
  [1; 0]%nat ≡ₚ seq 0 2 /\
  exists s' tr,
    Vector_dtor_in false [1; 0]%nat {| start := 1; size := 2; capacity := 2 |}
      lion_and_zebra = Ok s' /\
    trace s' = trace lion_and_zebra ++ tr /\
    tr ≡ₚ [Destroyed (InBuffer 1%positive) the_lion;
            Destroyed (InBuffer 2%positive) the_zebra] /\
    heap s' = ∅.
Proof.
  split; [apply represents_lion_and_zebra|]. split; [apply perm_swap|].
  apply (@X9_vector_destruction AnimalClass zoo_x86_64 false
           {| start := 1; size := 2; capacity := 2 |} 3%positive lion_and_zebra
           [the_lion; the_zebra] [1; 0]%nat).
  - apply represents_lion_and_zebra.
  - apply perm_swap.
Defined.

Lemma X10_witness :
  (forall (T : AnimalClass) (x : @obj _ zoo_x86_64 T), fst (move_ctor T x) = x) /\
  exists s,
    roster_program false (fun c => 2 * c)%nat [the_penguin; the_lion; the_penguin] =
      Ok (0%Z, s) /\
    cout (trace s) =
      ("Penguin needs: fish (2kg/day)" ++ String "010"%char
       ("Lion needs: meat (11kg/day)" ++ String "010"%char
        ("Penguin needs: fish (2kg/day)" ++ String "010"%char EmptyString)))%string /\
    heap s = ∅ /\
    constructions (trace s) = destructions (trace s).
Proof.
  split; [reflexivity|].
  apply (@X10_roster_prints_in_order AnimalClass zoo_x86_64 false (fun c => 2 * c)%nat
           (fun T x => eq_refl) [the_penguin; the_lion; the_penguin]).
Defined.

Lemma X11_witness :
  heap lion_and_zebra !! 1%positive = Some (holding Lion Lion_ctor) /\
  Lion <> Zebra /\
  print_food_requirements (vtable_for Zebra) 1%positive lion_and_zebra = Undefined /\
  destroy (vtable_for Zebra) 1%positive lion_and_zebra = Undefined /\
  move (vtable_for Zebra) 1%positive 3%positive lion_and_zebra = Undefined.
Proof.
  split; [reflexivity|]. split; [congruence|].
  apply (@X11_table_of_another_type AnimalClass zoo_x86_64 Zebra 1%positive 3%positive
           lion_and_zebra (@holding _ zoo_x86_64 Lion Lion_ctor)).
  - reflexivity.
  - simpl. congruence.
Defined.

Lemma X12_witness :
  Lion_print_food_requirements Lion_ctor = Lion_print_food_requirements (Animal_ctor "Lion") /\
  Lion = Lion /\ get_name Lion_ctor = get_name (Animal_ctor "Lion").
Proof.
  split; [reflexivity|].
  apply (X12_line_identifies_animal 40 8 Lion Lion Lion_ctor (Animal_ctor "Lion")).
  reflexivity.
Defined.

End MoreExamples.

(** ** Whole programs *)

Section Programs.
Context {Ty : Type} `{Concrete Ty}.
Variable alignof_max_align_t : N.
Variable NDEBUG : bool.

(** X13.  A program made of statements that compile, started with no
    container, keeps the invariant of every container it leaves, and at its
    end the objects it constructed in buffers are those it destroyed there
    plus those still held.  So a program that ends with no container has
    leaked nothing and destroyed nothing twice. *)
Theorem X13_programs_leak_nothing (sts : list (Stmt Ty)) (ops : list (Op Ty)) (s : State Ty) :
  Forall2 (fun st op => compile alignof_max_align_t st = inr op) sts ops ->
  exec_all NDEBUG ops initial = Ok s ->
  wf_state alignof_max_align_t s /\
  constructions (trace s) = (destructions (trace s) + live (heap s))%nat /\
  (heap s = ∅ -> constructions (trace s) = destructions (trace s)).
Proof.
  intros Hc Hexec.
  destruct (exec_all_balance alignof_max_align_t NDEBUG sts ops initial s)
    as [Hwf Hbal]; [|done|done|].
  { intros p c. simpl. by rewrite lookup_empty. }
  simpl in Hbal. unfold live in Hbal at 1. rewrite map_fold_empty in Hbal.
  split; [done|]. split; [lia|].
  intros Hempty. rewrite Hempty in Hbal. unfold live in Hbal.
  rewrite map_fold_empty in Hbal. lia.
Qed.


End Programs.

Section ProgramExamples.
#[local] Existing Instance zoo_x86_64.
#[local] Hint Mode Concrete ! : typeclass_instances.

Lemma X13_witness :
  constructions (trace (run [OpCtor Lion Lion_ctor 1%positive; OpMoveCtor 2%positive 1%positive;
                             OpDtor 1%positive; OpDtor 2%positive])) =
  destructions (trace (run [OpCtor Lion Lion_ctor 1%positive; OpMoveCtor 2%positive 1%positive;
                            OpDtor 1%positive; OpDtor 2%positive])).
Proof.
  destruct (@X13_programs_leak_nothing AnimalClass zoo_x86_64 max_align_x86_64 false
              [Init 1%positive (OfType Lion (Lion_ctor : @obj AnimalClass zoo_x86_64 Lion));
               Init 2%positive (OfAnyAnimal rvalue false 1%positive);
               EndOfLifetime 1%positive; EndOfLifetime 2%positive]
              [OpCtor Lion (Lion_ctor : @obj AnimalClass zoo_x86_64 Lion) 1%positive;
               OpMoveCtor 2%positive 1%positive; OpDtor 1%positive; OpDtor 2%positive]
              (run [OpCtor Lion (Lion_ctor : @obj AnimalClass zoo_x86_64 Lion) 1%positive;
                    OpMoveCtor 2%positive 1%positive; OpDtor 1%positive; OpDtor 2%positive]))
    as (_ & _ & Hend).
  - by repeat constructor.
  - reflexivity.
  - apply Hend. reflexivity.
Defined.


End ProgramExamples.
